(** * wlib fixed-block memory pool: the Router of [memory/Memory.cpp]

    A shallow embedding of [src/lib/wlib/memory/Memory.cpp] together with
    the properties stated about it.  Memory is an explicit store: the
    [Allocator] objects created by [new] live in a map indexed by their
    address, the static array [_allocators] holds addresses (or null), and
    every raw block lives in a second map indexed by the block's address.
    The first word of a block (where the Router keeps the owning
    [Allocator*]) is a field of the block, so that [__memory_free] finds the
    bank through the block exactly as the source does. *)

From Stdlib Require Import ZArith List Lia Bool Sorted.
From stdpp Require Import base option list gmap.

Local Open Scope Z_scope.

(** ** Machine integers *)

(** [size32_type] is an unsigned 32-bit integer, [size_type] (Types.h) is
    [uint16_t]: arithmetic in those types wraps. *)
Definition wrap (bits z : Z) : Z := z mod 2 ^ bits.
Definition u32 (z : Z) : Z := wrap 32 z.
Definition u16 (z : Z) : Z := wrap 16 z.

(** ** Outcomes

    [Fault] stands for undefined behaviour of the C++ program (a null or
    dangling pointer is dereferenced, a write leaves its block);
    [OutOfFuel] is the model's own artefact for the recursion of
    [__memory_alloc]. *)
Inductive outcome (A : Type) : Type :=
| Ok (a : A)
| Fault
| OutOfFuel.
Arguments Ok {A} a.
Arguments Fault {A}.
Arguments OutOfFuel {A}.

Definition obind {A B} (m : outcome A) (k : A -> outcome B) : outcome B :=
  match m with
  | Ok a => k a
  | Fault => Fault
  | OutOfFuel => OutOfFuel
  end.

Notation "'do' x <- m ; k" := (obind m (fun x => k))
  (at level 10, x pattern, m at level 100, k at level 200).

Definition of_option {A} (o : option A) : outcome A :=
  match o with
  | Some a => Ok a
  | None => Fault
  end.

(** ** Build-time configuration (MemoryConfiguration.h is not part of the
    sources at hand: its macros are the fields of [Config]). *)
Inductive PoolMode := STATIC_POOL | DYNAMIC_POOL | NO_POOL.

Record Config := mkConfig {
  pool : PoolMode;
  MAX_ALLOCATORS : nat;      (* length of the array [_allocators] *)
  NUM_BLOCKS : Z;            (* blocks per bank *)
  sizeof_ptr : Z;            (* sizeof(Allocator * ) on the host *)
  size_t_bits : Z            (* sizeof(size_t) * BYTE_SIZE *)
}.

Definition is_pool (cfg : Config) : bool :=
  match pool cfg with
  | NO_POOL => false
  | _ => true
  end.

(** [static constexpr size_type required_extra_buffer = sizeof(Allocator * )] *)
Definition required_extra_buffer (cfg : Config) : Z := u16 (sizeof_ptr cfg).

(** ** The store *)

Inductive BankKind := StaticBank | DynamicBank.

(** Modelled from the spec: the class [Allocator] (Allocator.h and its
    subclasses StaticAllocatorPool / DynamicAllocatorPool are missing from
    the sources).  A bank has a block size, a capacity, the count of blocks
    handed out and a free list, kept as the stack of free block addresses. *)
Record Allocator := mkAllocator {
  a_kind : BankKind;
  blockSize : Z;
  totalBlocks : Z;
  numAllocations : Z;
  freeList : list nat
}.

(** A raw block: the bank whose storage it belongs to, its size, its first
    machine word when that word holds the
    owning [Allocator*] (and [None] while it holds anything else, such as
    the free-list link), and the bytes of the client region. *)
Record Block := mkBlock {
  b_owner : nat;
  b_size : Z;
  b_tag : option nat;
  b_data : list Z
}.

Record State := mkState {
  _allocators : list (option nat);
  objects : gmap nat Allocator;
  next_obj : nat;
  memory : gmap nat Block;
  next_blk : nat;
  m_srefCount : Z
}.

Definition with_allocators (l : list (option nat)) (st : State) : State :=
  mkState l (objects st) (next_obj st) (memory st) (next_blk st) (m_srefCount st).

Definition with_objects (o : gmap nat Allocator) (st : State) : State :=
  mkState (_allocators st) o (next_obj st) (memory st) (next_blk st) (m_srefCount st).

Definition with_memory (m : gmap nat Block) (st : State) : State :=
  mkState (_allocators st) (objects st) (next_obj st) m (next_blk st) (m_srefCount st).

Definition with_refCount (c : Z) (st : State) : State :=
  mkState (_allocators st) (objects st) (next_obj st) (memory st) (next_blk st) c.

(** The program before any static constructor ran: the array is
    zero-initialised, nothing is allocated, the counter is 0. *)
Definition initial_state (cfg : Config) : State :=
  mkState (replicate (MAX_ALLOCATORS cfg) None) ∅ 0%nat ∅ 0%nat 0.

(** [p->member] on an [Allocator*]. *)
Definition deref (st : State) (a : nat) : outcome Allocator :=
  of_option (objects st !! a).

(** ** The bank (class Allocator) *)

Definition fresh_data (cfg : Config) (bs : Z) : list Z :=
  replicate (Z.to_nat (bs - required_extra_buffer cfg)) 0.

Definition fresh_block (cfg : Config) (a : nat) (bs : Z) : Block :=
  mkBlock a bs None (fresh_data cfg bs).

(** Modelled from the spec: construction of a bank.  A Static bank reserves
    its [capacity] blocks at once and starts with all of them on the free
    list; a Dynamic bank (and the plain [Allocator] of the configuration
    without a pool) reserves nothing. *)
Definition new_bank (cfg : Config) (k : BankKind) (bs n : Z) (st : State)
  : nat * State :=
  let a := next_obj st in
  match k with
  | StaticBank =>
      let ids := seq (next_blk st) (Z.to_nat n) in
      (a, mkState (_allocators st)
            (<[a := mkAllocator StaticBank bs n 0 ids]> (objects st))
            (S a)
            (foldr (fun b m => <[b := fresh_block cfg a bs]> m) (memory st) ids)
            (next_blk st + Z.to_nat n)%nat
            (m_srefCount st))
  | DynamicBank =>
      (a, mkState (_allocators st)
            (<[a := mkAllocator DynamicBank bs n 0 []]> (objects st))
            (S a) (memory st) (next_blk st) (m_srefCount st))
  end.

(** Modelled from the spec: [Allocator::Allocate].  Pop the head of the
    free list; when the list is empty a Dynamic bank below its capacity
    obtains a new block from the raw heap (taken to succeed: the raw heap
    is an external collaborator), any other bank returns null. *)
Definition Allocate (cfg : Config) (a : nat) (st : State)
  : outcome (option nat * State) :=
  do A <- deref st a;
  match freeList A with
  | b :: fl =>
      Ok (Some b,
          with_objects
            (<[a := mkAllocator (a_kind A) (blockSize A) (totalBlocks A)
                      (numAllocations A + 1) fl]> (objects st)) st)
  | [] =>
      match a_kind A with
      | DynamicBank =>
          if numAllocations A <? totalBlocks A then
            let b := next_blk st in
            Ok (Some b,
                mkState (_allocators st)
                  (<[a := mkAllocator (a_kind A) (blockSize A) (totalBlocks A)
                            (numAllocations A + 1) []]> (objects st))
                  (next_obj st)
                  (<[b := fresh_block cfg a (blockSize A)]> (memory st))
                  (S b) (m_srefCount st))
          else Ok (None, st)
      | StaticBank => Ok (None, st)
      end
  end.

(** Modelled from the spec: [Allocator::Deallocate].  Push the block on
    the free list; its first word becomes the free-list link. *)
Definition Deallocate (a b : nat) (st : State) : outcome State :=
  do A <- deref st a;
  do blk <- of_option (memory st !! b);
  Ok (mkState (_allocators st)
        (<[a := mkAllocator (a_kind A) (blockSize A) (totalBlocks A)
                  (numAllocations A - 1) (b :: freeList A)]> (objects st))
        (next_obj st)
        (<[b := mkBlock (b_owner blk) (b_size blk) None (b_data blk)]> (memory st))
        (next_blk st) (m_srefCount st)).

Definition GetBlockSize (A : Allocator) : Z := blockSize A.
Definition GetNumAllocations (A : Allocator) : Z := numAllocations A.
Definition GetTotalBlocks (A : Allocator) : Z := totalBlocks A.

(** Modelled from the spec: the bank's destructor releases the bank and
    the storage of its blocks. *)
Definition delete_bank (a : nat) (st : State) : State :=
  mkState (_allocators st) (delete a (objects st)) (next_obj st)
    (filter (fun kb => b_owner (snd kb) <> a) (memory st))
    (next_blk st) (m_srefCount st).

(** ** Bootstrap *)

(** [RestrictSize::apply<pow, blockSize>()] *)
Definition RestrictSize_apply (pow blockSize : Z) : Z :=
  if (9 <=? pow) && (pow <? 9 + 3)
  then nth (Z.to_nat (pow - 9)) [300; 400; 500] 0
  else blockSize.

(** [static_cast<uint16_t>(log2(required_extra_buffer) + 1)] *)
Definition powStart (cfg : Config) : Z :=
  Z.log2 (required_extra_buffer cfg) + 1.

(** Block size of the bank built by [insert<powStart, from, to>::apply]. *)
Definition pool_blockSize (cfg : Config) (from : nat) : Z :=
  let curr_pow := u16 (Z.of_nat from + powStart cfg) in
  RestrictSize_apply curr_pow (u32 (Z.shiftl 1 curr_pow)).

Definition pool_kind (cfg : Config) : BankKind :=
  match pool cfg with
  | STATIC_POOL => StaticBank
  | _ => DynamicBank
  end.

(** [insert<powStart, from, to>::apply()], by recursion on [to - from]; the
    terminal specialisation [insert<powStart, from, from>] is the case 0. *)
Fixpoint insert_apply (cfg : Config) (n : nat) (from : nat) (st : State) : State :=
  let '(a, st1) :=
    new_bank cfg (pool_kind cfg) (pool_blockSize cfg from) (NUM_BLOCKS cfg) st in
  let st2 := with_allocators (<[from := Some a]> (_allocators st1)) st1 in
  match n with
  | O => st2
  | S n' => insert_apply cfg n' (S from) st2
  end.

(** [memory_init]: without a pool macro the bodies of [insert::apply] are
    empty. *)
Definition memory_init (cfg : Config) (st : State) : State :=
  if is_pool cfg then insert_apply cfg (MAX_ALLOCATORS cfg - 1) 0 st else st.

Fixpoint destroy_slots (slots : list (option nat)) (st : State)
  : list (option nat) * State :=
  match slots with
  | [] => ([], st)
  | None :: r => (None :: r, st)
  | Some a :: r =>
      let '(r', st') := destroy_slots r (delete_bank a st) in
      (None :: r', st')
  end.

Definition memory_destroy (st : State) : State :=
  let '(l, st') := destroy_slots (_allocators st) st in
  with_allocators l st'.

(** What a constructor or destructor of [MemoryInitDestroy] called. *)
Inductive Call := call_memory_init | call_memory_destroy.

(** [MemoryInitDestroy::MemoryInitDestroy()]:
    [if (m_srefCount++ == 0) memory_init();] *)
Definition MemoryInitDestroy_ctor (cfg : Config) (st : State) : list Call * State :=
  let st1 := with_refCount (m_srefCount st + 1) st in
  if m_srefCount st =? 0 then ([call_memory_init], memory_init cfg st1)
  else ([], st1).


(** ** Registry *)

Fixpoint find_in (cfg : Config) (st : State) (slots : list (option nat)) (size : Z)
  : outcome (option nat) :=
  match slots with
  | [] => Ok None
  | None :: _ => Ok None
  | Some a :: r =>
      do A <- deref st a;
      if (if is_pool cfg then size <=? GetBlockSize A else GetBlockSize A =? size)
      then Ok (Some a)
      else find_in cfg st r size
  end.

Definition find_allocator (cfg : Config) (size : Z) (st : State)
  : outcome (option nat) :=
  find_in cfg st (_allocators st) size.

Fixpoint insert_in (slots : list (option nat)) (a : nat)
  : option (list (option nat)) :=
  match slots with
  | [] => None
  | None :: r => Some (Some a :: r)
  | Some x :: r => option_map (cons (Some x)) (insert_in r a)
  end.

Definition insert_allocator (a : nat) (st : State) : bool * State :=
  match insert_in (_allocators st) a with
  | Some l => (true, with_allocators l st)
  | None => (false, st)
  end.

(** ** Router *)

(** [set_block_allocator]: write the bank into the first word of the block.
    The write needs [sizeof(Allocator * )] bytes inside the block. *)
Definition set_block_allocator (cfg : Config) (b a : nat) (st : State)
  : outcome State :=
  do blk <- of_option (memory st !! b);
  if required_extra_buffer cfg <=? b_size blk
  then Ok (with_memory
             (<[b := mkBlock (b_owner blk) (b_size blk) (Some a) (b_data blk)]>
                (memory st)) st)
  else Fault.

(** The loop of [nextHigher]: [k |= (k >> i)] for [i = 1, 2, 4, ...] while
    [i < bits]. *)
Fixpoint smear (fuel : nat) (bits i k : Z) : Z :=
  match fuel with
  | O => k
  | S f =>
      if i <? bits
      then smear f bits (Z.shiftl i 1) (Z.lor k (Z.shiftr k i))
      else k
  end.

(** [nextHigher<T>(k)] for an unsigned [T] of [bits] bits.  [i] at least
    doubles from 1, so [bits] rounds always reach [i >= bits]. *)
Definition nextHigher (bits k : Z) : Z :=
  let k1 := wrap bits (k - 1) in
  let k2 := smear (Z.to_nat bits) bits 1 k1 in
  wrap bits (k2 + 1).

(** The bucket of a block size in the configuration without a pool. *)
Definition bucket (cfg : Config) (blockSize : Z) : Z :=
  if (256 <? blockSize) && (blockSize <=? 396) then 396
  else if (512 <? blockSize) && (blockSize <=? 768) then 768
  else u32 (nextHigher (size_t_bits cfg) blockSize).

(** [memory_get_allocator] *)
Definition memory_get_allocator (cfg : Config) (size : Z) (st : State)
  : outcome (option nat * State) :=
  let blockSize := u32 (size + required_extra_buffer cfg) in
  let blockSize := if is_pool cfg then blockSize else bucket cfg blockSize in
  do allocator <- find_allocator cfg blockSize st;
  match allocator with
  | None =>
      if is_pool cfg then Ok (None, st)
      else
        let '(a, st1) := new_bank cfg DynamicBank blockSize (NUM_BLOCKS cfg) st in
        match insert_allocator a st1 with
        | (true, st2) => Ok (Some a, st2)
        | (false, st2) => Ok (None, st2)
        end
  | Some a => Ok (Some a, st)
  end.

(** [_allocators[MAX_ALLOCATORS - 1]->GetBlockSize()] *)
Definition last_blockSize (cfg : Config) (st : State) : outcome Z :=
  do slot <- of_option (_allocators st !! (MAX_ALLOCATORS cfg - 1)%nat);
  do a <- of_option slot;
  do A <- deref st a;
  Ok (GetBlockSize A).

(** [__memory_alloc]; [fuel] bounds the depth of its recursion. *)
Fixpoint __memory_alloc (fuel : nat) (cfg : Config) (size : Z) (st : State)
  : outcome (option nat * State) :=
  match fuel with
  | O => OutOfFuel
  | S fuel' =>
      do r <- memory_get_allocator cfg size st;
      match r with
      | (None, st1) => Ok (None, st1)
      | (Some a, st1) =>
          do r2 <- Allocate cfg a st1;
          match r2 with
          | (None, st2) =>
              do A <- deref st2 a;
              let currBlockSize := GetBlockSize A in
              do lastSize <- last_blockSize cfg st2;
              if currBlockSize <? lastSize
              then __memory_alloc fuel' cfg (u32 (currBlockSize + 1)) st2
              else Ok (None, st2)
          | (Some b, st2) =>
              do st3 <- set_block_allocator cfg b a st2;
              Ok (Some b, st3)
          end
      end
  end.

(** [get_block_allocator]: read the first word of the block. *)
Definition get_block_allocator (b : nat) (st : State) : outcome nat :=
  do blk <- of_option (memory st !! b);
  of_option (b_tag blk).

(** [__memory_free] *)
Definition __memory_free (ptr : option nat) (st : State) : outcome State :=
  match ptr with
  | None => Ok st
  | Some b =>
      do a <- get_block_allocator b st;
      Deallocate a b st
  end.

(** The number of bytes [__memory_realloc] copies:
    [size_type oldSize = oldAllocator->GetBlockSize() - sizeof(Allocator * )]
    and then [(oldSize < size) ? oldSize : size]. *)
Definition realloc_copy_len (cfg : Config) (oldBlockSize size : Z) : Z :=
  let oldSize := u16 (oldBlockSize - sizeof_ptr cfg) in
  if oldSize <? size then oldSize else size.

(** [memcpy(dst, src, n)] between the client regions of two blocks. *)
Definition memcpy (dst src : nat) (n : Z) (st : State) : outcome State :=
  do d <- of_option (memory st !! dst);
  do s <- of_option (memory st !! src);
  let k := Z.to_nat n in
  if (k <=? length (b_data s))%nat && (k <=? length (b_data d))%nat
  then Ok (with_memory
             (<[dst := mkBlock (b_owner d) (b_size d) (b_tag d)
                         (take k (b_data s) ++ drop k (b_data d))]> (memory st)) st)
  else Fault.

(** [__memory_realloc] *)
Definition __memory_realloc (fuel : nat) (cfg : Config) (oldMem : option nat)
    (size : Z) (st : State) : outcome (option nat * State) :=
  match oldMem with
  | None => __memory_alloc fuel cfg size st
  | Some old =>
      if size =? 0 then
        do st1 <- __memory_free oldMem st;
        Ok (None, st1)
      else
        do r <- __memory_alloc fuel cfg size st;
        match r with
        | (Some new, st1) =>
            do oa <- get_block_allocator old st1;
            do oldAllocator <- deref st1 oa;
            let n := realloc_copy_len cfg (GetBlockSize oldAllocator) size in
            do st2 <- memcpy new old n st1;
            do st3 <- __memory_free oldMem st2;
            Ok (Some new, st3)
        | (None, st1) => Ok (None, st1)
        end
  end.

(** ** Stats *)

(** The loops of [getTotalMemoryUsed] and [getTotalMemoryAvailable]: every
    slot of [_allocators] is dereferenced, [totalMemory] is a [size32_type]. *)
Fixpoint total_over (f : Allocator -> Z) (st : State)
    (slots : list (option nat)) (totalMemory : Z) : outcome Z :=
  match slots with
  | [] => Ok totalMemory
  | slot :: r =>
      do a <- of_option slot;
      do A <- deref st a;
      total_over f st r (u32 (totalMemory + f A))
  end.

Definition getTotalMemoryUsed (st : State) : outcome Z :=
  total_over (fun A => GetNumAllocations A * GetBlockSize A) st (_allocators st) 0.

Definition getTotalMemoryAvailable (st : State) : outcome Z :=
  total_over (fun A => GetTotalBlocks A * GetBlockSize A) st (_allocators st) 0.

(** ** The bucket as the specification words it *)

(** The next power of two greater than or equal to [t]. *)
Definition next_pow2 (t : Z) : Z := 2 ^ Z.log2_up t.

(** Bucketing of the configuration without a pool, following the
    specification: [(256, 396] -> 396], [(512, 768] -> 768], otherwise the
    next power of two. *)
Definition spec_bucket (total : Z) : Z :=
  if (256 <? total) && (total <=? 396) then 396
  else if (512 <? total) && (total <=? 768) then 768
  else next_pow2 total.

(** Bit [j] of a smeared word is set when some bit of [k] at a distance
    below [w] above [j] is set. *)
Definition win (k w j : Z) : Prop :=
  exists d, 0 <= d < w /\ Z.testbit k (j + d) = true.

(** ** Views of the state *)

(** The bank a slot of [_allocators] points to. *)
Definition slot_bank (st : State) (slot : option nat) : option Allocator :=
  match slot with
  | Some a => objects st !! a
  | None => None
  end.

(** The array as seen through its pointers, slot by slot. *)
Definition banks (st : State) : list (option Allocator) :=
  map (slot_bank st) (_allocators st).

(** The Registry: the banks of the populated slots, in array order. *)
Definition registry (st : State) : list Allocator :=
  omap (slot_bank st) (_allocators st).

Definition registry_sizes (st : State) : list Z :=
  map blockSize (registry st).

Definition sum_over (f : Allocator -> Z) (l : list Allocator) : Z :=
  foldr (fun A acc => f A + acc) 0 l.

(** Sum over all banks of capacity times block size. *)
Definition sum_available (st : State) : Z :=
  sum_over (fun A => totalBlocks A * blockSize A) (registry st).

(** Sum over all banks of in-use count times block size. *)
Definition sum_used (st : State) : Z :=
  sum_over (fun A => numAllocations A * blockSize A) (registry st).


(** A bank can hand out a block. *)
Definition has_free_block (A : Allocator) : bool :=
  match freeList A with
  | _ :: _ => true
  | [] =>
      match a_kind A with
      | DynamicBank => numAllocations A <? totalBlocks A
      | StaticBank => false
      end
  end.

(** The part of a bank that never changes after construction. *)
Definition static (A : Allocator) : BankKind * Z * Z :=
  (a_kind A, blockSize A, totalBlocks A).

Definition shape (st : State)
  : list (option nat) * gmap nat (BankKind * Z * Z) * nat :=
  (_allocators st, static <$> objects st, next_obj st).

(** ** Configurations, runs and invariants *)

Definition valid_config (cfg : Config) : Prop :=
  (1 <= MAX_ALLOCATORS cfg)%nat /\
  0 < NUM_BLOCKS cfg /\
  0 < sizeof_ptr cfg < 256 /\
  (is_pool cfg = true -> powStart cfg + Z.of_nat (MAX_ALLOCATORS cfg) <= 31) /\
  (size_t_bits cfg = 32 \/ size_t_bits cfg = 64).

(** The state once the first [MemoryInitDestroy] object is constructed. *)
Definition bootstrap (cfg : Config) : State :=
  snd (MemoryInitDestroy_ctor cfg (initial_state cfg)).

(** States reachable from Bootstrap by calls of the Router that return. *)
Inductive reachable (cfg : Config) : State -> Prop :=
| reach_boot : reachable cfg (bootstrap cfg)
| reach_alloc st fuel n r st' :
    reachable cfg st -> 0 <= n < 2 ^ 32 ->
    __memory_alloc fuel cfg n st = Ok (r, st') ->
    reachable cfg st'
| reach_free st p st' :
    reachable cfg st ->
    __memory_free p st = Ok st' ->
    reachable cfg st'
| reach_realloc st fuel p n r st' :
    reachable cfg st -> 0 <= n < 2 ^ 32 ->
    __memory_realloc fuel cfg p n st = Ok (r, st') ->
    reachable cfg st'.

(** The populated slots come first. *)
Definition prefix_filled (slots : list (option nat)) : Prop :=
  exists l k, slots = map Some l ++ replicate k None.

(** Block sizes a bank may have: those of the pool layout are at least the
    prefix and at most [2^30]; on-demand buckets are 0, at most [2^30], or
    [2^31]. *)
Definition size_ok (cfg : Config) (bs : Z) : Prop :=
  0 <= bs /\ (bs <= 2 ^ 30 \/ bs = 2 ^ 31) /\
  (is_pool cfg = true -> required_extra_buffer cfg < bs <= 2 ^ 30).

(** The banks of a pool, slot by slot. *)
Definition pool_layout (cfg : Config) : list (BankKind * Z * Z) :=
  map (fun i => (pool_kind cfg, pool_blockSize cfg i, NUM_BLOCKS cfg))
      (seq 0 (MAX_ALLOCATORS cfg)).

Record Inv (cfg : Config) (st : State) : Prop := mkInv {
  inv_len : length (_allocators st) = MAX_ALLOCATORS cfg;
  inv_prefix : prefix_filled (_allocators st);
  inv_deref : forall a, Some a ∈ _allocators st -> is_Some (objects st !! a);
  inv_fresh : forall a, is_Some (objects st !! a) -> (a < next_obj st)%nat;
  inv_sizes : forall a A, objects st !! a = Some A -> size_ok cfg (blockSize A);
  inv_distinct : NoDup (registry_sizes st);
  inv_pool : is_pool cfg = true -> map static (registry st) = pool_layout cfg;
  inv_free : forall a A b, objects st !! a = Some A -> b ∈ freeList A ->
               is_Some (memory st !! b);
  inv_blocks : is_pool cfg = true -> forall b blk, memory st !! b = Some blk ->
               required_extra_buffer cfg <= b_size blk
}.

(** Block size of the pool bank of exponent [p]. *)
Definition pow_size (p : Z) : Z := RestrictSize_apply p (2 ^ p).

(** The store while [insert<...>::apply] has filled the first [k] slots. *)
Definition building (cfg : Config) (k : nat) (st : State) : Prop :=
  _allocators st = map Some (seq 0 k) ++ replicate (MAX_ALLOCATORS cfg - k) None /\
  next_obj st = k /\
  (forall i, (i < k)%nat -> exists A, objects st !! i = Some A /\
     static A = (pool_kind cfg, pool_blockSize cfg i, NUM_BLOCKS cfg)) /\
  (forall a, is_Some (objects st !! a) -> (a < k)%nat) /\
  (forall a A b, objects st !! a = Some A -> b ∈ freeList A ->
     is_Some (memory st !! b)) /\
  (forall b blk, memory st !! b = Some blk ->
     exists i, (i < k)%nat /\ b_size blk = pool_blockSize cfg i).

(** Number of banks of the Registry with a block size above [s]. *)
Definition banks_above (st : State) (s : Z) : nat :=
  length (filter (fun bs => s < bs) (registry_sizes st)).





(** Scenario configurations. *)
Definition cfg_static : Config := mkConfig STATIC_POOL 8 4 4 32.
Definition cfg_dynamic_large : Config := mkConfig DYNAMIC_POOL 20 1024 4 32.
Definition cfg_on_demand : Config := mkConfig NO_POOL 2 4 4 32.

(** A run of [alloc] calls, one per requested size, with the pointers they
    return. *)
Fixpoint alloc_list (cfg : Config) (sizes : list Z) (st : State)
  : outcome (list (option nat) * State) :=
  match sizes with
  | [] => Ok ([], st)
  | n :: sizes' =>
      do r <- __memory_alloc (S (MAX_ALLOCATORS cfg)) cfg n st;
      do rs <- alloc_list cfg sizes' (snd r);
      Ok (fst r :: fst rs, snd rs)
  end.

(** The call came back: it returned or ran into undefined behaviour,
    the fuel was enough. *)
Definition terminated {A} (o : outcome A) : Prop :=
  match o with
  | OutOfFuel => False
  | _ => True
  end.

(** The final state of a run ([dflt] when the run does not return). *)
Definition run_state {A} (dflt : State) (o : outcome (A * State)) : State :=
  match o with
  | Ok r => snd r
  | _ => dflt
  end.

(** Static pool, the 16-byte bank just exhausted by four [alloc(12)]. *)
Definition st_static_4x12 : State :=
  run_state (bootstrap cfg_static)
    (alloc_list cfg_static [12; 12; 12; 12] (bootstrap cfg_static)).

(** No pool, two slots: [alloc(100)] then [alloc(1)]. *)
Definition st_on_demand_full : State :=
  run_state (bootstrap cfg_on_demand)
    (alloc_list cfg_on_demand [100; 1] (bootstrap cfg_on_demand)).

(** The fifth [alloc(12)] of the scenario. *)
Definition st_static_5x12 : State :=
  run_state st_static_4x12
    (__memory_alloc 9 cfg_static 12 st_static_4x12).

(** No pool, both slots taken: [alloc(20)] needs a 32-byte bank. *)
Definition st_on_demand_refused : State :=
  run_state st_on_demand_full
    (__memory_alloc 3 cfg_on_demand 20 st_on_demand_full).

(** The block size of the bank recorded in the first word of block [p]. *)
Definition block_bank_size (st : State) (p : nat) : option Z :=
  match memory st !! p with
  | Some blk =>
      match b_tag blk with
      | Some a => option_map blockSize (objects st !! a)
      | None => None
      end
  | None => None
  end.




(** The client stores the byte [v] in every byte of its region of block
    [p]. *)
Definition client_fill (p : nat) (v : Z) (st : State) : State :=
  with_memory
    (alter (fun blk => mkBlock (b_owner blk) (b_size blk) (b_tag blk)
                         (replicate (length (b_data blk)) v)) p (memory st)) st.

(** Byte [i] of the client region of block [p]. *)
Definition byte_at (st : State) (p : nat) (i : Z) : option Z :=
  match memory st !! p with
  | Some blk => b_data blk !! Z.to_nat i
  | None => None
  end.

(** No pool: [p = alloc(70000)] (a block of the 131072-byte bank), filled
    with ones by the client, then [realloc(p, 100000)]. *)
Definition st_big : State :=
  run_state (bootstrap cfg_on_demand)
    (__memory_alloc 3 cfg_on_demand 70000 (bootstrap cfg_on_demand)).

Definition st_big_filled : State := client_fill 0 1 st_big.

Definition st_big_realloc : State :=
  run_state st_big_filled
    (__memory_realloc 3 cfg_on_demand (Some 0%nat) 100000 st_big_filled).


(** ** The remaining Stats queries *)

(** The loop of [isSizeAvailable]: every slot is dereferenced until a bank
    of the size is met. *)
Fixpoint size_in (st : State) (slots : list (option nat)) (blockSize : Z)
  : outcome bool :=
  match slots with
  | [] => Ok false
  | slot :: r =>
      do a <- of_option slot;
      do A <- deref st a;
      if GetBlockSize A =? blockSize then Ok true else size_in st r blockSize
  end.

(** [isSizeAvailable] *)
Definition isSizeAvailable (blockSize : Z) (st : State) : outcome bool :=
  size_in st (_allocators st) blockSize.

(** The loop of [isSizeMemAvailable]; [totalMemAvail] and [totalMemUsed]
    are [uint32_t]. *)
Fixpoint size_mem_in (st : State) (slots : list (option nat)) (blockSize : Z)
  : outcome bool :=
  match slots with
  | [] => Ok false
  | slot :: r =>
      do a <- of_option slot;
      do A <- deref st a;
      if GetBlockSize A =? blockSize then
        let totalMemAvail := u32 (GetTotalBlocks A * GetBlockSize A) in
        let totalMemUsed := u32 (GetNumAllocations A * GetBlockSize A) in
        Ok (negb (u32 (totalMemAvail - totalMemUsed) =? 0))
      else size_mem_in st r blockSize
  end.

(** [isSizeMemAvailable] *)
Definition isSizeMemAvailable (blockSize : Z) (st : State) : outcome bool :=
  size_mem_in st (_allocators st) blockSize.

(** The loop of [getNumBlocksAvailable]: no early exit; [numBlockAvail] is
    a [uint16_t], the two products are [uint32_t], and the division by a
    [blockSize] of 0 is undefined. *)
Fixpoint blocks_in (st : State) (slots : list (option nat)) (blockSize : Z)
    (numBlockAvail : Z) : outcome Z :=
  match slots with
  | [] => Ok numBlockAvail
  | slot :: r =>
      do a <- of_option slot;
      do A <- deref st a;
      if GetBlockSize A =? blockSize then
        let totalMemAvail := u32 (GetTotalBlocks A * GetBlockSize A) in
        let totalMemUsed := u32 (GetNumAllocations A * GetBlockSize A) in
        if blockSize =? 0 then Fault
        else blocks_in st r blockSize
               (u16 (numBlockAvail
                     + u32 (totalMemAvail - totalMemUsed) / blockSize))
      else blocks_in st r blockSize numBlockAvail
  end.

(** [getNumBlocksAvailable] *)
Definition getNumBlocksAvailable (blockSize : Z) (st : State) : outcome Z :=
  blocks_in st (_allocators st) blockSize 0.

(** ** Further invariants *)

(** Every block belongs to a bank that exists. *)
Definition owned (st : State) : Prop :=
  forall b blk, memory st !! b = Some blk -> is_Some (objects st !! b_owner blk).


(** The counters of a bank: the blocks in use and the blocks on the free
    list make up the capacity of a Static bank, and never exceed that of a
    Dynamic bank. *)
Definition bank_ok (A : Allocator) : Prop :=
  match a_kind A with
  | StaticBank =>
      numAllocations A + Z.of_nat (length (freeList A)) = totalBlocks A
  | DynamicBank =>
      numAllocations A + Z.of_nat (length (freeList A)) <= totalBlocks A
  end.

Definition banks_ok (st : State) : Prop :=
  forall a A, objects st !! a = Some A -> bank_ok A.

(** The bank named in the first word of a block is held by a slot. *)
Definition tags_registered (st : State) : Prop :=
  forall b blk a, memory st !! b = Some blk -> b_tag blk = Some a ->
    Some a ∈ _allocators st.

(** * Properties *)

(** ** Machine integers *)

Lemma wrap_small bits z : 0 <= z < 2 ^ bits -> wrap bits z = z.
Proof. intros H. unfold wrap. apply Z.mod_small. exact H. Qed.

Lemma u32_small z : 0 <= z < 2 ^ 32 -> u32 z = z.
Proof. apply wrap_small. Qed.

Lemma u16_small z : 0 <= z < 2 ^ 16 -> u16 z = z.
Proof. apply wrap_small. Qed.

Lemma u32_range z : 0 <= u32 z < 2 ^ 32.
Proof. unfold u32, wrap. apply Z.mod_pos_bound. lia. Qed.

Lemma u32_add_l a b : u32 (u32 a + b) = u32 (a + b).
Proof. unfold u32, wrap. apply Zplus_mod_idemp_l. Qed.

(** ** [nextHigher] computes the next power of two *)

Lemma next_pow2_ge t : 0 < t -> t <= next_pow2 t.
Proof.
  intros Ht. unfold next_pow2.
  destruct (Z.eq_dec t 1) as [->|Hne]; [reflexivity|].
  apply Z.log2_up_spec. lia.
Qed.

Lemma next_pow2_least t e : 0 <= e -> t <= 2 ^ e -> next_pow2 t <= 2 ^ e.
Proof.
  intros He Hle. unfold next_pow2.
  apply Z.pow_le_mono_r; [lia|].
  destruct (Z_le_gt_dec t 1) as [H1|H1].
  - rewrite Z.log2_up_eqn0 by exact H1. exact He.
  - apply Z.log2_up_le_pow2; lia.
Qed.

Lemma win_double k i j : 0 < i -> win k i j \/ win k i (j + i) <-> win k (2 * i) j.
Proof.
  intros Hi. split.
  - intros [[d [Hd Hb]]|[d [Hd Hb]]].
    + exists d. split; [lia|exact Hb].
    + exists (i + d). split; [lia|]. rewrite Z.add_assoc. exact Hb.
  - intros [d [Hd Hb]]. destruct (Z_lt_ge_dec d i) as [Hlt|Hge].
    + left. exists d. split; [lia|exact Hb].
    + right. exists (d - i). split; [lia|].
      replace (j + i + (d - i)) with (j + d) by lia. exact Hb.
Qed.

Lemma smear_win fuel : forall bits i x k,
  0 < i ->
  (forall j, 0 <= j -> Z.testbit x j = true <-> win k i j) ->
  bits <= i * 2 ^ Z.of_nat fuel ->
  exists w, bits <= w /\
    forall j, 0 <= j -> Z.testbit (smear fuel bits i x) j = true <-> win k w j.
Proof.
  induction fuel as [|f IH]; intros bits i x k Hi Hx Hb.
  - exists i. split; [simpl in Hb; lia|]. exact Hx.
  - cbn [smear]. destruct (Z.ltb_spec i bits) as [Hlt|Hge].
    + apply IH.
      * rewrite Z.shiftl_mul_pow2 by lia. lia.
      * intros j Hj. rewrite Z.lor_spec, Z.shiftr_spec by exact Hj.
        rewrite orb_true_iff, !Hx by lia.
        rewrite Z.shiftl_mul_pow2 by lia.
        replace (i * 2 ^ 1) with (2 * i) by lia.
        apply win_double. exact Hi.
      * rewrite Z.shiftl_mul_pow2 by lia.
        rewrite Nat2Z.inj_succ, Z.pow_succ_r in Hb by lia. lia.
    + exists i. split; [lia|]. exact Hx.
Qed.

Lemma smear_ones bits k :
  0 < bits -> 0 < k < 2 ^ bits ->
  smear (Z.to_nat bits) bits 1 k = Z.ones (Z.log2 k + 1).
Proof.
  intros Hbits Hk.
  destruct (smear_win (Z.to_nat bits) bits 1 k k) as [w [Hw Hs]].
  - lia.
  - intros j Hj. split.
    + intros Hb. exists 0. split; [lia|]. rewrite Z.add_0_r. exact Hb.
    + intros [d [Hd Hb]]. replace (j + d) with j in Hb by lia. exact Hb.
  - rewrite Z2Nat.id by lia. pose proof (Z.pow_gt_lin_r 2 bits). lia.
  - assert (HL : Z.log2 k < bits) by (apply Z.log2_lt_pow2; lia).
    pose proof (Z.log2_nonneg k) as HL0.
    apply Z.bits_inj'. intros j Hj.
    destruct (Z_lt_ge_dec j (Z.log2 k + 1)) as [Hlo|Hhi].
    + rewrite Z.ones_spec_low by lia.
      apply Hs; [exact Hj|]. exists (Z.log2 k - j). split; [lia|].
      replace (j + (Z.log2 k - j)) with (Z.log2 k) by lia.
      apply Z.bit_log2. lia.
    + rewrite Z.ones_spec_high by lia.
      destruct (Z.testbit (smear (Z.to_nat bits) bits 1 k) j) eqn:E; [|reflexivity].
      apply Hs in E; [|exact Hj]. destruct E as [d [Hd Hb]].
      rewrite Z.bits_above_log2 in Hb by lia. discriminate.
Qed.

Lemma smear_zero fuel : forall bits i, 0 <= i -> smear fuel bits i 0 = 0.
Proof.
  induction fuel as [|f IH]; intros bits i Hi; [reflexivity|].
  cbn [smear]. destruct (i <? bits); [|reflexivity].
  rewrite Z.shiftr_0_l, Z.lor_0_l. apply IH. apply Z.shiftl_nonneg. exact Hi.
Qed.

Lemma nextHigher_next_pow2 bits k :
  0 < bits -> 0 < k <= 2 ^ (bits - 1) -> nextHigher bits k = next_pow2 k.
Proof.
  intros Hbits Hk. unfold nextHigher, next_pow2.
  assert (Hpow : 2 ^ bits = 2 * 2 ^ (bits - 1)).
  { replace bits with (Z.succ (bits - 1)) at 1 by lia.
    apply Z.pow_succ_r. lia. }
  assert (Hpos : 0 < 2 ^ (bits - 1)) by (apply Z.pow_pos_nonneg; lia).
  rewrite (wrap_small bits (k - 1)) by lia.
  destruct (Z.eq_dec k 1) as [->|Hne].
  - simpl (1 - 1). rewrite smear_zero by lia.
    rewrite wrap_small by lia. reflexivity.
  - rewrite smear_ones by lia.
    rewrite Z.ones_equiv.
    replace (Z.pred (2 ^ (Z.log2 (k - 1) + 1)) + 1)
      with (2 ^ (Z.log2 (k - 1) + 1)) by lia.
    rewrite Z.log2_up_eqn by lia.
    replace (Z.succ (Z.log2 (Z.pred k))) with (Z.log2 (k - 1) + 1)
      by (unfold Z.succ, Z.pred; replace (k + -1) with (k - 1) by lia; lia).
    assert (Hlog : Z.log2 (k - 1) < bits - 1) by (apply Z.log2_lt_pow2; lia).
    pose proof (Z.log2_nonneg (k - 1)) as Hnn.
    assert (Hle : 2 ^ (Z.log2 (k - 1) + 1) <= 2 ^ (bits - 1))
      by (apply Z.pow_le_mono_r; lia).
    assert (Hp : 0 < 2 ^ (Z.log2 (k - 1) + 1)) by (apply Z.pow_pos_nonneg; lia).
    apply wrap_small. lia.
Qed.

Lemma next_pow2_bound t : 0 < t <= 2 ^ 31 -> 0 < next_pow2 t <= 2 ^ 31.
Proof.
  intros Ht. split.
  - unfold next_pow2. apply Z.pow_pos_nonneg; [lia|apply Z.log2_up_nonneg].
  - apply next_pow2_least; lia.
Qed.

(** On totals up to [2^31] the code's bucket is the specification's. *)
Lemma bucket_spec cfg t :
  size_t_bits cfg = 32 \/ size_t_bits cfg = 64 ->
  0 < t <= 2 ^ 31 ->
  bucket cfg t = spec_bucket t.
Proof.
  intros Hbits Ht. unfold bucket, spec_bucket.
  destruct ((256 <? t) && (t <=? 396)); [reflexivity|].
  destruct ((512 <? t) && (t <=? 768)); [reflexivity|].
  pose proof (next_pow2_bound t Ht) as Hb.
  rewrite nextHigher_next_pow2.
  - apply u32_small. lia.
  - destruct Hbits as [-> | ->]; lia.
  - destruct Hbits as [-> | ->]; simpl (_ - 1); lia.
Qed.

(** ** Outcomes *)

Lemma obind_Ok {A B} (m : outcome A) (k : A -> outcome B) b :
  obind m k = Ok b -> exists a, m = Ok a /\ k a = Ok b.
Proof. destruct m as [a| |]; simpl; intros H; try discriminate. eauto. Qed.

Lemma of_option_Ok {A} (o : option A) a : of_option o = Ok a -> o = Some a.
Proof. destruct o; simpl; intros H; congruence. Qed.

Lemma deref_Ok st a A : deref st a = Ok A -> objects st !! a = Some A.
Proof. apply of_option_Ok. Qed.

(** Peel the binds of a hypothesis [... = Ok _]. *)
Ltac inv_ok H :=
  repeat match type of H with
  | obind _ _ = Ok _ =>
      let x := fresh "x" in let Hx := fresh "Hx" in
      apply obind_Ok in H; destruct H as [x [Hx H]]
  end.

(** ** The shape of the store is stable under updates of a bank *)

Lemma static_update (objs : gmap nat Allocator) a A A' :
  objs !! a = Some A -> static A' = static A ->
  static <$> <[a := A']> objs = static <$> objs.
Proof.
  intros Hl Hs. rewrite fmap_insert. apply insert_id.
  rewrite lookup_fmap, Hl. simpl. congruence.
Qed.

Lemma shape_lookup st st' a :
  shape st' = shape st ->
  static <$> objects st' !! a = static <$> objects st !! a.
Proof.
  intros H. injection H as _ H _. rewrite <- !lookup_fmap. congruence.
Qed.

Lemma shape_is_Some st st' a :
  shape st' = shape st -> is_Some (objects st' !! a) <-> is_Some (objects st !! a).
Proof.
  intros H. pose proof (shape_lookup st st' a H) as E.
  destruct (objects st' !! a), (objects st !! a); simpl in E; try discriminate;
    split; intros [x Hx]; try discriminate; eauto.
Qed.

Lemma registry_static_shape st st' :
  shape st' = shape st -> map static (registry st') = map static (registry st).
Proof.
  intros H. unfold registry.
  assert (Hs : _allocators st' = _allocators st) by (injection H; auto).
  rewrite Hs. clear Hs. generalize (_allocators st) as l.
  induction l as [|slot l IH]; [reflexivity|].
  simpl. destruct slot as [a|]; simpl; [|exact IH].
  pose proof (shape_lookup st st' a H) as E.
  destruct (objects st' !! a), (objects st !! a); simpl in E; try discriminate.
  - simpl. f_equal; [congruence|exact IH].
  - exact IH.
Qed.

Lemma registry_sizes_static st :
  registry_sizes st = map (fun t => snd (fst t)) (map static (registry st)).
Proof. unfold registry_sizes. rewrite map_map. reflexivity. Qed.

Lemma registry_sizes_shape st st' :
  shape st' = shape st -> registry_sizes st' = registry_sizes st.
Proof.
  intros H. rewrite !registry_sizes_static, (registry_static_shape _ _ H).
  reflexivity.
Qed.

(** The registry-level part of the invariant only depends on the shape. *)
Lemma Inv_transfer cfg st st' :
  Inv cfg st -> shape st' = shape st ->
  (forall a A b, objects st' !! a = Some A -> b ∈ freeList A ->
     is_Some (memory st' !! b)) ->
  (is_pool cfg = true -> forall b blk, memory st' !! b = Some blk ->
     required_extra_buffer cfg <= b_size blk) ->
  Inv cfg st'.
Proof.
  intros [Hlen Hpre Hder Hfr Hsz Hnd Hpool _ _] Hsh Hfree Hblk.
  assert (Hs : _allocators st' = _allocators st) by (injection Hsh; auto).
  assert (Hn : next_obj st' = next_obj st) by (injection Hsh; auto).
  constructor.
  - rewrite Hs. exact Hlen.
  - rewrite Hs. exact Hpre.
  - intros a Ha. rewrite Hs in Ha. apply (shape_is_Some _ _ a Hsh). auto.
  - intros a Ha. rewrite Hn. apply Hfr. apply (shape_is_Some _ _ a Hsh). exact Ha.
  - intros a A Ha. pose proof (shape_lookup st st' a Hsh) as E.
    rewrite Ha in E. destruct (objects st !! a) as [A0|] eqn:E0; [|discriminate].
    simpl in E. injection E as E1 E2 E3. rewrite E2. eapply Hsz. exact E0.
  - rewrite (registry_sizes_shape _ _ Hsh). exact Hnd.
  - intros Hp. rewrite (registry_static_shape _ _ Hsh). auto.
  - exact Hfree.
  - exact Hblk.
Qed.

(** ** The bank *)

Lemma Allocate_None cfg a st st' :
  Allocate cfg a st = Ok (None, st') ->
  st' = st /\ exists A, objects st !! a = Some A /\ has_free_block A = false.
Proof.
  unfold Allocate. intros H. inv_ok H. apply deref_Ok in Hx.
  assert (st' = st /\ has_free_block x = false) as [-> E]; [|eauto].
  unfold has_free_block.
  destruct (freeList x) as [|b fl]; [|discriminate].
  destruct (a_kind x).
  - injection H as <-. auto.
  - destruct (numAllocations x <? totalBlocks x) eqn:E; [discriminate|].
    injection H as <-. auto.
Qed.

Lemma Allocate_free_block cfg a st A :
  objects st !! a = Some A -> has_free_block A = true ->
  exists b st', Allocate cfg a st = Ok (Some b, st').
Proof.
  intros Ha Hf. unfold Allocate, deref. rewrite Ha. simpl.
  unfold has_free_block in Hf.
  destruct (freeList A) as [|b fl]; [|eauto].
  destruct (a_kind A); [discriminate|]. rewrite Hf. eauto.
Qed.

Lemma Allocate_shape cfg a st r st' :
  Allocate cfg a st = Ok (r, st') -> shape st' = shape st.
Proof.
  unfold Allocate. intros H. inv_ok H. apply deref_Ok in Hx.
  destruct (freeList x) as [|b fl].
  - destruct (a_kind x) eqn:Ek.
    + injection H as _ <-. reflexivity.
    + destruct (numAllocations x <? totalBlocks x).
      * injection H as _ <-. unfold shape. simpl.
        rewrite (static_update _ _ x); [reflexivity|exact Hx|].
        unfold static. simpl. rewrite Ek. reflexivity.
      * injection H as _ <-. reflexivity.
  - injection H as _ <-. unfold shape. simpl.
    rewrite (static_update _ _ x); [reflexivity|exact Hx|reflexivity].
Qed.

(** What [Allocate] hands out is a block of the store, of the bank's size,
    and the bank's free list only shrinks. *)
Lemma Allocate_Some cfg a st b st' :
  Allocate cfg a st = Ok (Some b, st') ->
  (forall a0 A0 b0, objects st !! a0 = Some A0 -> b0 ∈ freeList A0 ->
     is_Some (memory st !! b0)) ->
  exists A, objects st !! a = Some A /\ has_free_block A = true /\
    objects st' =
      <[a := mkAllocator (a_kind A) (blockSize A) (totalBlocks A)
               (numAllocations A + 1) (tail (freeList A))]> (objects st) /\
    (exists blk, memory st' !! b = Some blk /\
       (b_size blk = blockSize A \/ memory st !! b = Some blk)) /\
    (forall b0 blk0, memory st !! b0 = Some blk0 -> is_Some (memory st' !! b0)) /\
    (forall b0 blk0, memory st' !! b0 = Some blk0 ->
       memory st !! b0 = Some blk0 \/ b_size blk0 = blockSize A).
Proof.
  unfold Allocate. intros H Hfree. inv_ok H. apply deref_Ok in Hx.
  exists x. split; [exact Hx|]. unfold has_free_block.
  destruct (freeList x) as [|b1 fl] eqn:Efl.
  - destruct (a_kind x) eqn:Ek; [discriminate|].
    destruct (numAllocations x <? totalBlocks x) eqn:E; [|discriminate].
    injection H as <- <-. simpl. split; [reflexivity|].
    split; [reflexivity|].
    split; [|split].
    + exists (fresh_block cfg a (blockSize x)). rewrite lookup_insert_eq. auto.
    + intros b0 blk0 Hb0. rewrite lookup_insert. case_decide; eauto.
    + intros b0 blk0. rewrite lookup_insert. case_decide.
      * intros [= <-]. right. reflexivity.
      * auto.
  - injection H as <- <-. simpl. split; [reflexivity|]. split; [reflexivity|].
    destruct (Hfree a x b1 Hx) as [blk Hblk]; [rewrite Efl; left|].
    split; [|split]; eauto.
Qed.

(** Apply a lemma whose conclusion mentions projections of an updated
    state, after computing those projections. *)
Ltac apply_simpl L :=
  let HH := fresh "HH" in pose proof L as HH; simpl in HH; apply HH; clear HH.

Lemma Inv_memory_update cfg st b blk blk' :
  Inv cfg st -> memory st !! b = Some blk -> b_size blk' = b_size blk ->
  Inv cfg (with_memory (<[b := blk']> (memory st)) st).
Proof.
  intros HI Hb Hsz. apply (Inv_transfer cfg st); [exact HI|reflexivity| |].
  - intros a A b0 Ha Hb0. simpl in *. rewrite lookup_insert. case_decide; [eauto|].
    eapply (inv_free _ _ HI); eauto.
  - intros Hp b0 blk0. simpl. rewrite lookup_insert. case_decide.
    + intros [= <-]. rewrite Hsz. eapply (inv_blocks _ _ HI); eauto.
    + apply (inv_blocks _ _ HI Hp).
Qed.

Lemma Inv_bank_update cfg st a A A' :
  Inv cfg st -> objects st !! a = Some A -> static A' = static A ->
  (forall b, b ∈ freeList A' -> is_Some (memory st !! b)) ->
  Inv cfg (with_objects (<[a := A']> (objects st)) st).
Proof.
  intros HI Ha Hs Hfl. apply (Inv_transfer cfg st); [exact HI| | |].
  - unfold shape. simpl. rewrite (static_update _ _ A) by assumption. reflexivity.
  - intros a0 A0 b0. simpl. rewrite lookup_insert. case_decide.
    + intros [= <-]. apply Hfl.
    + apply (inv_free _ _ HI).
  - apply (inv_blocks _ _ HI).
Qed.

Lemma Inv_memory_insert cfg st b blk :
  Inv cfg st ->
  (is_pool cfg = true -> required_extra_buffer cfg <= b_size blk) ->
  Inv cfg (mkState (_allocators st) (objects st) (next_obj st)
             (<[b := blk]> (memory st)) (S (next_blk st)) (m_srefCount st)).
Proof.
  intros HI Hsz. apply (Inv_transfer cfg st); [exact HI|reflexivity| |].
  - intros a A b0 Ha Hb0. simpl in *. rewrite lookup_insert. case_decide; [eauto|].
    eapply (inv_free _ _ HI); eauto.
  - intros Hp b0 blk0. simpl. rewrite lookup_insert. case_decide.
    + intros [= <-]. auto.
    + apply (inv_blocks _ _ HI Hp).
Qed.

Lemma Allocate_Inv cfg a st r st' :
  Inv cfg st -> Allocate cfg a st = Ok (r, st') -> Inv cfg st'.
Proof.
  intros HI H. unfold Allocate in H. inv_ok H. apply deref_Ok in Hx.
  destruct (freeList x) as [|b fl] eqn:Efl.
  - destruct (a_kind x) eqn:Ek.
    + injection H as _ <-. exact HI.
    + destruct (numAllocations x <? totalBlocks x); [|injection H as _ <-; exact HI].
      injection H as _ <-.
      pose proof (inv_sizes _ _ HI a x Hx) as [_ [_ Hs]].
      apply_simpl (Inv_memory_insert cfg
               (with_objects (<[a := mkAllocator DynamicBank (blockSize x)
                   (totalBlocks x) (numAllocations x + 1) []]> (objects st)) st)
               (next_blk st) (fresh_block cfg a (blockSize x))).
      * apply (Inv_bank_update cfg st a x); [exact HI|exact Hx| |].
        -- unfold static. simpl. rewrite Ek. reflexivity.
        -- simpl. intros b Hb. inversion Hb.
      * intros Hp. simpl. specialize (Hs Hp). lia.
  - injection H as _ <-.
    apply (Inv_bank_update cfg st a x); [exact HI|exact Hx|reflexivity|].
    simpl. intros b0 Hb0. apply (inv_free _ _ HI a x); [exact Hx|].
    rewrite Efl. right. exact Hb0.
Qed.

Lemma set_block_allocator_Inv cfg b a st st' :
  Inv cfg st -> set_block_allocator cfg b a st = Ok st' -> Inv cfg st'.
Proof.
  intros HI H. unfold set_block_allocator in H. inv_ok H.
  apply of_option_Ok in Hx.
  destruct (required_extra_buffer cfg <=? b_size x); [|discriminate].
  injection H as <-. apply (Inv_memory_update cfg st b x); auto.
Qed.

Lemma Deallocate_Inv cfg a b st st' :
  Inv cfg st -> Deallocate a b st = Ok st' -> Inv cfg st'.
Proof.
  intros HI H. unfold Deallocate in H. inv_ok H.
  apply deref_Ok in Hx. apply of_option_Ok in Hx0. injection H as <-.
  apply_simpl (Inv_memory_update cfg
           (with_objects (<[a := mkAllocator (a_kind x) (blockSize x)
               (totalBlocks x) (numAllocations x - 1) (b :: freeList x)]>
               (objects st)) st) b x0); [|exact Hx0|reflexivity].
  apply (Inv_bank_update cfg st a x); [exact HI|exact Hx|reflexivity|].
  simpl. intros b0 Hb0. apply elem_of_cons in Hb0 as [->|Hb0]; [eauto|].
  eapply (inv_free _ _ HI); eauto.
Qed.

Lemma memory_free_Inv cfg p st st' :
  Inv cfg st -> __memory_free p st = Ok st' -> Inv cfg st'.
Proof.
  intros HI H. destruct p as [b|]; simpl in H.
  - inv_ok H. eapply Deallocate_Inv; eauto.
  - injection H as <-. exact HI.
Qed.

Lemma memcpy_Inv cfg dst src n st st' :
  Inv cfg st -> memcpy dst src n st = Ok st' -> Inv cfg st'.
Proof.
  intros HI H. unfold memcpy in H. inv_ok H.
  apply of_option_Ok in Hx.
  destruct (_ && _); [|discriminate].
  injection H as <-. apply (Inv_memory_update cfg st dst x); auto.
Qed.

(** ** The Registry *)

Lemma find_in_Some cfg st slots size a :
  find_in cfg st slots size = Ok (Some a) ->
  Some a ∈ slots /\ exists A, objects st !! a = Some A /\
    (if is_pool cfg then size <= blockSize A else blockSize A = size).
Proof.
  induction slots as [|slot r IH]; simpl; [discriminate|].
  destruct slot as [x|]; [|discriminate].
  intros H. inv_ok H. apply deref_Ok in Hx. unfold GetBlockSize in H.
  destruct (if is_pool cfg then size <=? blockSize x0 else blockSize x0 =? size)
    eqn:Ec.
  - injection H as <-. split; [left|]. exists x0. split; [exact Hx|].
    destruct (is_pool cfg); [apply Z.leb_le|apply Z.eqb_eq]; exact Ec.
  - destruct (IH H) as [Hin HA]. split; [right; exact Hin|exact HA].
Qed.

(** A search that finds nothing has looked at every bank of the Registry. *)
Lemma find_in_None cfg st l k size :
  find_in cfg st (map Some l ++ replicate k None) size = Ok None ->
  forall a A, a ∈ l -> objects st !! a = Some A ->
    if is_pool cfg then blockSize A < size else blockSize A <> size.
Proof.
  induction l as [|x l IH]; simpl; intros H a A Ha HA.
  - inversion Ha.
  - inv_ok H. apply deref_Ok in Hx. unfold GetBlockSize in H.
    apply elem_of_cons in Ha as [->|Ha].
    + rewrite HA in Hx. injection Hx as <-.
      destruct (is_pool cfg).
      * destruct (Z.leb_spec size (blockSize A)); [discriminate|assumption].
      * destruct (Z.eqb_spec (blockSize A) size); [discriminate|assumption].
    + destruct (if is_pool cfg then size <=? blockSize x0 else blockSize x0 =? size);
        [discriminate|]. eapply IH; eauto.
Qed.

Lemma insert_in_room l r a :
  insert_in (map Some l ++ None :: r) a = Some (map Some (l ++ [a]) ++ r).
Proof.
  induction l as [|x l IH]; simpl; [reflexivity|]. rewrite IH. reflexivity.
Qed.

Lemma insert_in_full l a : insert_in (map Some l) a = None.
Proof. induction l as [|x l IH]; simpl; [reflexivity|]. rewrite IH. reflexivity. Qed.

Lemma registry_prefix st l k :
  _allocators st = map Some l ++ replicate k None ->
  registry st = omap (fun a => objects st !! a) l.
Proof.
  intros H. unfold registry. rewrite H. clear H.
  induction l as [|x l IH].
  - simpl. induction k as [|k IHk]; [reflexivity|exact IHk].
  - change (omap (slot_bank st) (map Some (x :: l) ++ replicate k None))
      with (from_option (fun y => y :: omap (slot_bank st) (map Some l ++ replicate k None))
              (omap (slot_bank st) (map Some l ++ replicate k None)) (objects st !! x)).
    rewrite IH. reflexivity.
Qed.

Lemma elem_of_prefix (l : list nat) k a :
  Some a ∈ map Some l ++ replicate k None <-> a ∈ l.
Proof.
  rewrite elem_of_app. split.
  - intros [H|H].
    + apply list_elem_of_fmap in H as [y [[= ->] Hy]]. exact Hy.
    + apply elem_of_replicate in H as [H _]. discriminate.
  - intros H. left. apply list_elem_of_fmap. eauto.
Qed.

Lemma registry_elem st a A :
  Some a ∈ _allocators st -> objects st !! a = Some A -> A ∈ registry st.
Proof.
  intros Hin HA. unfold registry. apply list_elem_of_omap.
  exists (Some a). split; [exact Hin|exact HA].
Qed.

Lemma omap_lookup_ext (objs objs' : gmap nat Allocator) (l : list nat) :
  (forall a, a ∈ l -> objs' !! a = objs !! a) ->
  omap (fun a => objs' !! a) l = omap (fun a => objs !! a) l.
Proof.
  induction l as [|x l IH]; intros H; [reflexivity|]. simpl.
  rewrite (H x) by left.
  assert (IH' := IH (fun a Ha => H a (list_elem_of_further _ _ _ Ha))).
  destruct (objs !! x); [f_equal|]; exact IH'.
Qed.

(** ** The values of [bucket] *)

Lemma nextHigher_top bits t :
  0 < bits -> 2 ^ (bits - 1) < t < 2 ^ bits -> nextHigher bits t = 0.
Proof.
  intros Hbits Ht. unfold nextHigher.
  assert (Hpow : 2 ^ bits = 2 * 2 ^ (bits - 1)).
  { replace bits with (Z.succ (bits - 1)) at 1 by lia.
    apply Z.pow_succ_r. lia. }
  rewrite (wrap_small bits (t - 1)) by lia.
  rewrite smear_ones by lia.
  rewrite (Z.log2_unique (t - 1) (bits - 1)).
  - replace (bits - 1 + 1) with bits by lia. rewrite Z.ones_equiv.
    replace (Z.pred (2 ^ bits) + 1) with (2 ^ bits) by lia.
    unfold wrap. apply Z_mod_same_full.
  - lia.
  - replace (Z.succ (bits - 1)) with bits by lia. lia.
Qed.

Lemma bucket_size_ok cfg t :
  size_t_bits cfg = 32 \/ size_t_bits cfg = 64 ->
  is_pool cfg = false ->
  0 <= t < 2 ^ 32 ->
  size_ok cfg (bucket cfg t).
Proof.
  intros Hbits Hp Ht. unfold size_ok. rewrite Hp.
  assert (H : 0 <= bucket cfg t /\ (bucket cfg t <= 2 ^ 30 \/ bucket cfg t = 2 ^ 31));
    [|destruct H; repeat split; auto; discriminate].
  destruct (Z_le_gt_dec t (2 ^ 31)) as [Hle|Hgt].
  - destruct (Z.eq_dec t 0) as [->|Hne].
    + destruct Hbits as [Hb|Hb]; unfold bucket; rewrite Hb; vm_compute;
        split; [discriminate|left; discriminate|discriminate|left; discriminate].
    + rewrite bucket_spec by (auto; lia). unfold spec_bucket.
      destruct ((256 <? t) && (t <=? 396)); [lia|].
      destruct ((512 <? t) && (t <=? 768)); [lia|].
      unfold next_pow2.
      assert (He : 0 <= Z.log2_up t <= 31).
      { split; [apply Z.log2_up_nonneg|].
        apply Z.log2_up_le_pow2; lia. }
      split; [apply Z.pow_nonneg; lia|].
      destruct (Z.eq_dec (Z.log2_up t) 31) as [->|Hn]; [right; reflexivity|].
      left. apply Z.pow_le_mono_r; lia.
  - assert (Hb : bucket cfg t = 0); [|rewrite Hb; lia].
    unfold bucket.
    replace ((256 <? t) && (t <=? 396)) with false by (symmetry; apply andb_false_iff; right; apply Z.leb_gt; lia).
    replace ((512 <? t) && (t <=? 768)) with false by (symmetry; apply andb_false_iff; right; apply Z.leb_gt; lia).
    destruct Hbits as [-> | ->].
    + rewrite nextHigher_top by (simpl; lia). reflexivity.
    + rewrite nextHigher_next_pow2 by lia. unfold next_pow2.
      rewrite (Z.log2_up_unique t 32) by (simpl; lia). reflexivity.
Qed.

(** ** [memory_get_allocator] *)

Lemma memory_get_allocator_pool cfg size st r st1 :
  is_pool cfg = true ->
  memory_get_allocator cfg size st = Ok (r, st1) ->
  st1 = st /\
  find_allocator cfg (u32 (size + required_extra_buffer cfg)) st = Ok r.
Proof.
  intros Hp H. unfold memory_get_allocator in H. rewrite Hp in H.
  inv_ok H. destruct x; injection H as <- <-; auto.
Qed.

Lemma memory_get_allocator_on_demand cfg size st r st1 :
  is_pool cfg = false ->
  memory_get_allocator cfg size st = Ok (r, st1) ->
  let b := bucket cfg (u32 (size + required_extra_buffer cfg)) in
  (find_allocator cfg b st = Ok r /\ is_Some r /\ st1 = st) \/
  (find_allocator cfg b st = Ok None /\
   exists st0, new_bank cfg DynamicBank b (NUM_BLOCKS cfg) st = (next_obj st, st0) /\
     match insert_in (_allocators st) (next_obj st) with
     | Some l => r = Some (next_obj st) /\ st1 = with_allocators l st0
     | None => r = None /\ st1 = st0
     end).
Proof.
  intros Hp H. unfold memory_get_allocator in H. rewrite Hp in H.
  inv_ok H. destruct x as [a|].
  - injection H as <- <-. left. eauto.
  - right. split; [exact Hx|]. simpl in H. unfold insert_allocator in H. simpl in H.
    eexists. split; [reflexivity|].
    destruct (insert_in (_allocators st) (next_obj st));
      injection H as <- <-; auto.
Qed.

Lemma prefix_fresh cfg st l k a :
  Inv cfg st -> _allocators st = map Some l ++ replicate k None ->
  a ∈ l -> a <> next_obj st.
Proof.
  intros HI Hs Ha Heq.
  assert (Hin : Some a ∈ _allocators st) by (rewrite Hs; apply elem_of_prefix; exact Ha).
  pose proof (inv_fresh _ _ HI a (inv_deref _ _ HI a Hin)). lia.
Qed.

(** A bank constructed by [new] and left outside the array. *)
Lemma new_bank_orphan_Inv cfg st bs st0 :
  Inv cfg st -> is_pool cfg = false -> size_ok cfg bs ->
  new_bank cfg DynamicBank bs (NUM_BLOCKS cfg) st = (next_obj st, st0) ->
  Inv cfg st0 /\ registry st0 = registry st /\ memory st0 = memory st /\
  _allocators st0 = _allocators st.
Proof.
  intros HI Hp Hbs Hnew. simpl in Hnew. injection Hnew as <-.
  destruct (inv_prefix _ _ HI) as [l [k Hs]].
  assert (Hreg : registry
            (mkState (_allocators st)
               (<[next_obj st := mkAllocator DynamicBank bs (NUM_BLOCKS cfg) 0 []]>
                  (objects st))
               (S (next_obj st)) (memory st) (next_blk st) (m_srefCount st))
          = registry st).
  { rewrite (registry_prefix _ l k) by exact Hs.
    rewrite (registry_prefix st l k) by exact Hs. simpl.
    apply omap_lookup_ext. intros a Ha. apply lookup_insert_ne.
    intros Heq. symmetry in Heq. revert Heq. eapply prefix_fresh; eauto. }
  split; [|auto].
  constructor; simpl.
  - apply (inv_len _ _ HI).
  - apply (inv_prefix _ _ HI).
  - intros a Ha. rewrite lookup_insert. case_decide; [eauto|].
    apply (inv_deref _ _ HI). exact Ha.
  - intros a. rewrite lookup_insert. case_decide; [lia|].
    intros Ha. pose proof (inv_fresh _ _ HI a Ha). lia.
  - intros a A. rewrite lookup_insert. case_decide.
    + intros [= <-]. exact Hbs.
    + apply (inv_sizes _ _ HI).
  - unfold registry_sizes. rewrite Hreg. apply (inv_distinct _ _ HI).
  - rewrite Hp. discriminate.
  - intros a A b. rewrite lookup_insert. case_decide.
    + intros [= <-]. simpl. intros Hb. inversion Hb.
    + apply (inv_free _ _ HI).
  - rewrite Hp. discriminate.
Qed.

(** Storing a fresh bank in the first free slot. *)
Lemma insert_slot_Inv cfg st0 l k a A :
  Inv cfg st0 -> is_pool cfg = false ->
  _allocators st0 = map Some l ++ replicate (S k) None ->
  objects st0 !! a = Some A ->
  (forall A0, A0 ∈ registry st0 -> blockSize A0 <> blockSize A) ->
  Inv cfg (with_allocators (map Some (l ++ [a]) ++ replicate k None) st0) /\
  registry (with_allocators (map Some (l ++ [a]) ++ replicate k None) st0)
  = registry st0 ++ [A].
Proof.
  intros HI Hp Hs Ha Hnew.
  assert (Hreg : registry (with_allocators (map Some (l ++ [a]) ++ replicate k None) st0)
                 = registry st0 ++ [A]).
  { rewrite (registry_prefix _ (l ++ [a]) k) by reflexivity.
    rewrite (registry_prefix st0 l (S k)) by exact Hs. simpl.
    rewrite omap_app. simpl. rewrite Ha. reflexivity. }
  split; [|exact Hreg].
  constructor; simpl.
  - rewrite <- (inv_len _ _ HI), Hs.
    rewrite !length_app, !length_map, !length_app, !length_replicate. simpl. lia.
  - exists (l ++ [a]), k. reflexivity.
  - intros x Hx. apply elem_of_prefix in Hx. apply elem_of_app in Hx as [Hx|Hx].
    + apply (inv_deref _ _ HI). rewrite Hs. apply elem_of_prefix. exact Hx.
    + apply list_elem_of_singleton in Hx as ->. eauto.
  - apply (inv_fresh _ _ HI).
  - apply (inv_sizes _ _ HI).
  - unfold registry_sizes. rewrite Hreg, map_app. simpl.
    apply NoDup_app. split; [apply (inv_distinct _ _ HI)|]. split.
    + intros x Hx Hx'. apply list_elem_of_singleton in Hx' as ->.
      apply list_elem_of_fmap in Hx as [A0 [HA0 Hin]].
      apply (Hnew A0 Hin). congruence.
    + apply NoDup_singleton.
  - rewrite Hp. discriminate.
  - apply (inv_free _ _ HI).
  - apply (inv_blocks _ _ HI).
Qed.

Lemma insert_in_prefix l k a :
  insert_in (map Some l ++ replicate k None) a =
  match k with
  | O => None
  | S k' => Some (map Some (l ++ [a]) ++ replicate k' None)
  end.
Proof.
  destruct k as [|k'].
  - simpl. rewrite app_nil_r. apply insert_in_full.
  - simpl. apply insert_in_room.
Qed.

Lemma find_allocator_None_registry cfg st size :
  Inv cfg st -> find_allocator cfg size st = Ok None ->
  forall A, A ∈ registry st ->
    if is_pool cfg then blockSize A < size else blockSize A <> size.
Proof.
  intros HI H A HA. destruct (inv_prefix _ _ HI) as [l [k Hs]].
  unfold find_allocator in H. rewrite Hs in H.
  rewrite (registry_prefix st l k Hs) in HA.
  apply list_elem_of_omap in HA as [a [Ha HA]].
  eapply find_in_None; eauto.
Qed.

Lemma memory_get_allocator_Inv cfg size st r st1 :
  valid_config cfg -> Inv cfg st ->
  memory_get_allocator cfg size st = Ok (r, st1) ->
  Inv cfg st1.
Proof.
  intros Hv HI H. destruct (is_pool cfg) eqn:Hp.
  - apply memory_get_allocator_pool in H as [-> _]; auto.
  - apply memory_get_allocator_on_demand in H; [|exact Hp].
    destruct H as [[_ [_ ->]]|[Hfind [st0 [Hnew Hins]]]]; [exact HI|].
    assert (Hok : size_ok cfg (bucket cfg (u32 (size + required_extra_buffer cfg)))).
    { apply bucket_size_ok; [apply Hv|exact Hp|apply u32_range]. }
    destruct (new_bank_orphan_Inv _ _ _ _ HI Hp Hok Hnew) as [HI0 [Hreg [Hmem Hsl]]].
    destruct (inv_prefix _ _ HI) as [l [k Hs]].
    rewrite Hs, insert_in_prefix in Hins. destruct k as [|k'].
    + destruct Hins as [_ ->]. exact HI0.
    + destruct Hins as [_ ->].
      simpl in Hnew. injection Hnew as Hnew.
      eapply (insert_slot_Inv cfg st0 l k' (next_obj st)); eauto.
      * rewrite Hsl. exact Hs.
      * rewrite <- Hnew. simpl. apply lookup_insert_eq.
      * intros A0 HA0. simpl. rewrite Hreg in HA0.
        apply (find_allocator_None_registry cfg st _ HI Hfind) in HA0.
        rewrite Hp in HA0. exact HA0.
Qed.

(** ** The Router keeps the invariant *)

Lemma memory_alloc_Inv cfg fuel : forall size st r st',
  valid_config cfg -> Inv cfg st ->
  __memory_alloc fuel cfg size st = Ok (r, st') ->
  Inv cfg st'.
Proof.
  induction fuel as [|f IH]; intros size st r st' Hv HI H; [discriminate|].
  cbn [__memory_alloc] in H. inv_ok H. destruct x as [[a|] st1].
  - assert (HI1 : Inv cfg st1) by (eapply memory_get_allocator_Inv; eauto).
    inv_ok H. destruct x as [[b|] st2].
    + assert (HI2 : Inv cfg st2) by (eapply Allocate_Inv; eauto).
      inv_ok H. injection H as _ <-. eapply set_block_allocator_Inv; eauto.
    + assert (HI2 : Inv cfg st2) by (eapply Allocate_Inv; eauto).
      inv_ok H. destruct (_ <? _); [eapply IH; eauto|].
      injection H as _ <-. exact HI2.
  - injection H as _ <-. eapply memory_get_allocator_Inv; eauto.
Qed.

Lemma memory_realloc_Inv cfg fuel p size st r st' :
  valid_config cfg -> Inv cfg st ->
  __memory_realloc fuel cfg p size st = Ok (r, st') ->
  Inv cfg st'.
Proof.
  intros Hv HI H. unfold __memory_realloc in H. destruct p as [old|].
  - destruct (size =? 0).
    + inv_ok H. injection H as _ <-. eapply memory_free_Inv; eauto.
    + inv_ok H. destruct x as [[new|] st1].
      * assert (HI1 : Inv cfg st1) by (eapply memory_alloc_Inv; eauto).
        inv_ok H. injection H as _ <-.
        eapply memory_free_Inv; [|eauto]. eapply memcpy_Inv; eauto.
      * injection H as _ <-. eapply memory_alloc_Inv; eauto.
  - eapply memory_alloc_Inv; eauto.
Qed.

(** ** The layout of a pool *)

Lemma pow_size_step (n : nat) :
  (n < 30)%nat -> pow_size (Z.of_nat n) < pow_size (Z.of_nat (S n)).
Proof.
  intros Hn.
  do 30 (destruct n as [|n]; [vm_compute; reflexivity|]). lia.
Qed.

Lemma pow_size_mono_nat (d : nat) : forall n : nat,
  (n + S d <= 30)%nat -> pow_size (Z.of_nat n) < pow_size (Z.of_nat (n + S d)).
Proof.
  induction d as [|d IH]; intros n Hn.
  - replace (n + 1)%nat with (S n) by lia. apply pow_size_step. lia.
  - eapply Z.lt_trans; [apply (IH n); lia|].
    replace (n + S (S d))%nat with (S (n + S d)) by lia.
    apply pow_size_step. lia.
Qed.

Lemma pow_size_mono p q : 0 <= p -> p < q -> q <= 30 -> pow_size p < pow_size q.
Proof.
  intros Hp Hpq Hq.
  pose proof (pow_size_mono_nat (Z.to_nat (q - p) - 1) (Z.to_nat p)) as H.
  replace (Z.to_nat p + S (Z.to_nat (q - p) - 1))%nat with (Z.to_nat q) in H by lia.
  rewrite !Z2Nat.id in H by lia. apply H. lia.
Qed.

Lemma pow_size_le_max p : 0 <= p <= 30 -> pow_size p <= 2 ^ 30.
Proof.
  intros Hp. destruct (Z.eq_dec p 30) as [->|Hne]; [vm_compute; discriminate|].
  apply Z.lt_le_incl. change (2 ^ 30) with (pow_size 30).
  apply pow_size_mono; lia.
Qed.

Lemma powStart_bounds cfg :
  0 < sizeof_ptr cfg < 256 ->
  required_extra_buffer cfg = sizeof_ptr cfg /\
  1 <= powStart cfg <= 8 /\
  sizeof_ptr cfg < pow_size (powStart cfg).
Proof.
  intros Hw.
  assert (Hr : required_extra_buffer cfg = sizeof_ptr cfg).
  { unfold required_extra_buffer. apply u16_small. lia. }
  unfold powStart. rewrite Hr.
  pose proof (Z.log2_nonneg (sizeof_ptr cfg)) as H0.
  assert (H7 : Z.log2 (sizeof_ptr cfg) < 8) by (apply Z.log2_lt_pow2; lia).
  split; [reflexivity|]. split; [lia|].
  unfold pow_size, RestrictSize_apply.
  replace (9 <=? Z.log2 (sizeof_ptr cfg) + 1) with false
    by (symmetry; apply Z.leb_gt; lia).
  simpl. pose proof (Z.log2_spec (sizeof_ptr cfg)) as Hs.
  replace (Z.succ (Z.log2 (sizeof_ptr cfg))) with (Z.log2 (sizeof_ptr cfg) + 1)
    in Hs by lia. lia.
Qed.

Lemma pool_blockSize_pow cfg (i : nat) :
  valid_config cfg -> is_pool cfg = true -> (i < MAX_ALLOCATORS cfg)%nat ->
  pool_blockSize cfg i = pow_size (Z.of_nat i + powStart cfg) /\
  1 <= Z.of_nat i + powStart cfg <= 30.
Proof.
  intros [_ [_ [Hw [Hpow _]]]] Hp Hi. specialize (Hpow Hp).
  destruct (powStart_bounds cfg Hw) as [_ [Hps _]].
  assert (Hr : 1 <= Z.of_nat i + powStart cfg <= 30) by lia.
  split; [|exact Hr].
  unfold pool_blockSize, pow_size.
  rewrite u16_small by lia.
  rewrite Z.shiftl_mul_pow2, Z.mul_1_l by lia.
  rewrite u32_small; [reflexivity|].
  split; [apply Z.pow_nonneg; lia|].
  apply Z.pow_lt_mono_r; lia.
Qed.

Lemma pool_blockSize_mono cfg (i j : nat) :
  valid_config cfg -> is_pool cfg = true ->
  (i < j)%nat -> (j < MAX_ALLOCATORS cfg)%nat ->
  pool_blockSize cfg i < pool_blockSize cfg j.
Proof.
  intros Hv Hp Hij Hj.
  destruct (pool_blockSize_pow cfg i Hv Hp) as [-> Hi]; [lia|].
  destruct (pool_blockSize_pow cfg j Hv Hp) as [-> Hj']; [lia|].
  apply pow_size_mono; lia.
Qed.

Lemma pool_blockSize_ok cfg (i : nat) :
  valid_config cfg -> is_pool cfg = true -> (i < MAX_ALLOCATORS cfg)%nat ->
  size_ok cfg (pool_blockSize cfg i).
Proof.
  intros Hv Hp Hi.
  destruct (pool_blockSize_pow cfg i Hv Hp Hi) as [-> Hr].
  destruct Hv as [_ [_ [Hw _]]].
  destruct (powStart_bounds cfg Hw) as [Hreb [Hps Hlt]].
  assert (Hlo : sizeof_ptr cfg < pow_size (Z.of_nat i + powStart cfg)).
  { destruct i as [|i]; [exact Hlt|].
    eapply Z.lt_trans; [exact Hlt|]. apply pow_size_mono; lia. }
  assert (Hhi := pow_size_le_max (Z.of_nat i + powStart cfg) ltac:(lia)).
  unfold size_ok. rewrite Hreb. repeat split; lia.
Qed.

(** ** Bootstrap establishes the invariant *)

Lemma foldr_insert_lookup (ids : list nat) (v : Block) (m : gmap nat Block) b :
  foldr (fun b m => <[b := v]> m) m ids !! b
  = if decide (b ∈ ids) then Some v else m !! b.
Proof.
  induction ids as [|x ids IH]; simpl.
  - reflexivity.
  - rewrite lookup_insert, IH.
    destruct (decide (x = b)) as [Hx|Hx], (decide (b ∈ ids)) as [Hin|Hnin],
      (decide (b ∈ x :: ids)) as [Hin'|Hnin']; try reflexivity; exfalso;
      rewrite elem_of_cons in *; intuition congruence.
Qed.

Lemma slots_fill (k m : nat) :
  <[k := Some k]> (map Some (seq 0 k) ++ replicate (S m) None)
  = map Some (seq 0 (S k)) ++ replicate m (None : option nat).
Proof.
  rewrite seq_S, map_app, <- app_assoc.
  rewrite insert_app_r_alt by (rewrite length_map, length_seq; lia).
  rewrite length_map, length_seq, Nat.sub_diag. reflexivity.
Qed.

Lemma building_step cfg k st :
  building cfg k st -> (k < MAX_ALLOCATORS cfg)%nat ->
  building cfg (S k)
    (let '(a, st1) :=
       new_bank cfg (pool_kind cfg) (pool_blockSize cfg k) (NUM_BLOCKS cfg) st in
     with_allocators (<[k := Some a]> (_allocators st1)) st1).
Proof.
  intros [Hs [Hn [Hobj [Hfr [Hfree Hblk]]]]] Hk.
  assert (Hslots : <[k := Some (next_obj st)]> (_allocators st)
                   = map Some (seq 0 (S k))
                     ++ replicate (MAX_ALLOCATORS cfg - S k) None).
  { rewrite Hs, Hn.
    replace (MAX_ALLOCATORS cfg - k)%nat with (S (MAX_ALLOCATORS cfg - S k)) by lia.
    apply slots_fill. }
  unfold building, new_bank. destruct (pool_kind cfg) eqn:Ek; simpl;
    (split; [exact Hslots|]); (split; [lia|]).
  - split; [|split; [|split]].
    + intros i Hi. rewrite lookup_insert, Hn. case_decide.
      * subst. eexists. split; [reflexivity|]. reflexivity.
      * apply Hobj. lia.
    + intros a. rewrite lookup_insert, Hn. case_decide; [lia|].
      intros Ha. specialize (Hfr a Ha). lia.
    + intros a A b. rewrite lookup_insert. case_decide.
      * intros [= <-]. simpl. intros Hb.
        rewrite foldr_insert_lookup. case_decide; [eauto|contradiction].
      * intros Ha Hb. rewrite foldr_insert_lookup. case_decide; [eauto|].
        eapply Hfree; eauto.
    + intros b blk. rewrite foldr_insert_lookup. case_decide.
      * intros [= <-]. exists k. split; [lia|reflexivity].
      * intros Hb. destruct (Hblk b blk Hb) as [i [Hi Hsz]]. exists i. split; [lia|auto].
  - split; [|split; [|split]].
    + intros i Hi. rewrite lookup_insert, Hn. case_decide.
      * subst. eexists. split; [reflexivity|]. reflexivity.
      * apply Hobj. lia.
    + intros a. rewrite lookup_insert, Hn. case_decide; [lia|].
      intros Ha. specialize (Hfr a Ha). lia.
    + intros a A b. rewrite lookup_insert. case_decide.
      * intros [= <-]. simpl. intros Hb. inversion Hb.
      * apply Hfree.
    + intros b blk Hb. destruct (Hblk b blk Hb) as [i [Hi Hsz]]. exists i. split; [lia|auto].
Qed.

Lemma insert_apply_building cfg (n : nat) : forall from st,
  building cfg from st -> (from + n < MAX_ALLOCATORS cfg)%nat ->
  building cfg (S (from + n)) (insert_apply cfg n from st).
Proof.
  induction n as [|n IH]; intros from st Hb Hlt.
  - rewrite Nat.add_0_r. cbn [insert_apply].
    pose proof (building_step cfg from st Hb ltac:(lia)) as Hstep.
    destruct (new_bank cfg (pool_kind cfg) (pool_blockSize cfg from)
                (NUM_BLOCKS cfg) st) as [a st1]. exact Hstep.
  - cbn [insert_apply].
    pose proof (building_step cfg from st Hb ltac:(lia)) as Hstep.
    destruct (new_bank cfg (pool_kind cfg) (pool_blockSize cfg from)
                (NUM_BLOCKS cfg) st) as [a st1].
    replace (S (from + S n)) with (S (S from + n)) by lia.
    apply IH; [exact Hstep|lia].
Qed.

Lemma building_initial cfg c :
  building cfg 0 (with_refCount c (initial_state cfg)).
Proof.
  unfold building. simpl. rewrite Nat.sub_0_r.
  split; [reflexivity|]. split; [reflexivity|].
  split; [intros i Hi; lia|].
  split; [intros a [x Hx]; rewrite lookup_empty in Hx; discriminate|].
  split; intros *; rewrite lookup_empty; discriminate.
Qed.

Lemma building_registry cfg st :
  building cfg (MAX_ALLOCATORS cfg) st ->
  map static (registry st) = pool_layout cfg.
Proof.
  intros [Hs [_ [Hobj _]]]. rewrite Nat.sub_diag in Hs.
  rewrite (registry_prefix st _ 0 Hs). unfold pool_layout.
  assert (H : forall l, (forall i, i ∈ l -> (i < MAX_ALLOCATORS cfg)%nat) ->
    map static (omap (fun a => objects st !! a) l)
    = map (fun i => (pool_kind cfg, pool_blockSize cfg i, NUM_BLOCKS cfg)) l).
  { induction l as [|x l IH]; intros Hl; [reflexivity|]. simpl.
    destruct (Hobj x) as [A [HA Hst]]; [apply Hl; left|].
    rewrite HA. simpl. rewrite Hst. f_equal. apply IH.
    intros i Hi. apply Hl. right. exact Hi. }
  apply H. intros i Hi. apply elem_of_seq in Hi. lia.
Qed.

Lemma pool_layout_NoDup cfg :
  valid_config cfg -> is_pool cfg = true ->
  NoDup (map (fun t : BankKind * Z * Z => snd (fst t)) (pool_layout cfg)).
Proof.
  intros Hv Hp. unfold pool_layout. rewrite map_map. simpl.
  apply NoDup_fmap_2_strong; [|apply NoDup_seq].
  intros i j Hi Hj Heq. apply elem_of_seq in Hi, Hj.
  destruct (Nat.lt_trichotomy i j) as [Hlt|[Heq'|Hgt]]; [|exact Heq'|].
  - pose proof (pool_blockSize_mono cfg i j Hv Hp Hlt ltac:(lia)). lia.
  - pose proof (pool_blockSize_mono cfg j i Hv Hp Hgt ltac:(lia)). lia.
Qed.

Lemma building_Inv cfg st :
  valid_config cfg -> is_pool cfg = true ->
  building cfg (MAX_ALLOCATORS cfg) st -> Inv cfg st.
Proof.
  intros Hv Hp Hb. pose proof (building_registry cfg st Hb) as Hreg.
  destruct Hb as [Hs [Hn [Hobj [Hfr [Hfree Hblk]]]]].
  rewrite Nat.sub_diag in Hs. constructor.
  - rewrite Hs, length_app, length_map, length_seq. simpl. lia.
  - eexists _, _. exact Hs.
  - intros a Ha. rewrite Hs in Ha. apply elem_of_prefix, elem_of_seq in Ha.
    destruct (Hobj a) as [A [HA _]]; [lia|eauto].
  - intros a Ha. rewrite Hn. auto.
  - intros a A HA. assert (Ha : (a < MAX_ALLOCATORS cfg)%nat) by (apply Hfr; eauto).
    destruct (Hobj a Ha) as [A' [HA' Hst]]. rewrite HA in HA'. injection HA' as <-.
    injection Hst as _ -> _. apply pool_blockSize_ok; auto.
  - rewrite registry_sizes_static, Hreg. apply pool_layout_NoDup; auto.
  - intros _. exact Hreg.
  - exact Hfree.
  - intros _ b blk Hb. destruct (Hblk b blk Hb) as [i [Hi ->]].
    destruct (pool_blockSize_ok cfg i Hv Hp Hi) as [_ [_ H]]. specialize (H Hp). lia.
Qed.

Lemma bootstrap_Inv cfg : valid_config cfg -> Inv cfg (bootstrap cfg).
Proof.
  intros Hv. unfold bootstrap, MemoryInitDestroy_ctor. simpl.
  unfold memory_init. destruct (is_pool cfg) eqn:Hp.
  - apply building_Inv; auto.
    pose proof (insert_apply_building cfg (MAX_ALLOCATORS cfg - 1) 0
      (with_refCount (0 + 1) (initial_state cfg)) (building_initial cfg _)) as H.
    destruct Hv as [Hm _].
    replace (S (0 + (MAX_ALLOCATORS cfg - 1))) with (MAX_ALLOCATORS cfg) in H by lia.
    apply H. lia.
  - constructor; simpl.
    + apply length_replicate.
    + exists [], (MAX_ALLOCATORS cfg). reflexivity.
    + intros a Ha. apply elem_of_replicate in Ha as [? _]. discriminate.
    + intros a [x Hx]. rewrite lookup_empty in Hx. discriminate.
    + intros a A. rewrite lookup_empty. discriminate.
    + unfold registry_sizes. rewrite (registry_prefix _ [] (MAX_ALLOCATORS cfg)) by reflexivity.
      constructor.
    + rewrite Hp. discriminate.
    + intros a A b. rewrite lookup_empty. discriminate.
    + rewrite Hp. discriminate.
Qed.

Theorem reachable_Inv cfg st :
  valid_config cfg -> reachable cfg st -> Inv cfg st.
Proof.
  intros Hv Hr. induction Hr as
    [|st fuel n r st' _ IH _ H|st p st' _ IH H|st fuel p n r st' _ IH _ H].
  - apply bootstrap_Inv. exact Hv.
  - eapply memory_alloc_Inv; eauto.
  - eapply memory_free_Inv; eauto.
  - eapply memory_realloc_Inv; eauto.
Qed.

Lemma alloc_list_reachable cfg sizes : forall st ps st',
  reachable cfg st ->
  Forall (fun n => 0 <= n < 2 ^ 32) sizes ->
  alloc_list cfg sizes st = Ok (ps, st') ->
  reachable cfg st'.
Proof.
  induction sizes as [|n sizes IH]; intros st ps st' Hr Hs H;
    cbn [alloc_list] in H.
  - injection H as _ <-. exact Hr.
  - inv_ok H. injection H as _ <-. destruct x as [p st1], x0 as [ps' st2].
    cbn [fst snd] in *. apply Forall_cons in Hs as [Hn Hs].
    eapply IH; [|exact Hs|exact Hx0].
    eapply reach_alloc; eauto.
Qed.

(** ** Stats *)

Lemma omap_cons_Some {A B} (f : A -> option B) x y l :
  f x = Some y -> omap f (x :: l) = y :: omap f l.
Proof. intros H. simpl. rewrite H. reflexivity. Qed.

Lemma omap_cons_None {A B} (f : A -> option B) x l :
  f x = None -> omap f (x :: l) = omap f l.
Proof. intros H. simpl. rewrite H. reflexivity. Qed.

Lemma total_over_sum f st slots : forall acc,
  Forall (fun slot => is_Some (slot_bank st slot)) slots ->
  total_over f st slots (u32 acc)
  = Ok (u32 (acc + sum_over f (omap (slot_bank st) slots))).
Proof.
  induction slots as [|slot r IH]; intros acc Hall.
  - simpl. rewrite Z.add_0_r. reflexivity.
  - apply Forall_cons in Hall as [[A HA] Hall].
    destruct slot as [a|]; [|discriminate]. simpl in HA.
    cbn [total_over of_option obind]. unfold deref. rewrite HA.
    cbn [of_option obind]. rewrite u32_add_l, IH by exact Hall.
    rewrite (omap_cons_Some _ (Some a) A) by exact HA.
    simpl. f_equal. f_equal. lia.
Qed.

Lemma omap_full {A B} (f : A -> option B) (l : list A) :
  length (omap f l) = length l -> Forall (fun x => is_Some (f x)) l.
Proof.
  assert (Hle : forall l', (length (omap f l') <= length l')%nat).
  { induction l' as [|x l' IH]; [simpl; lia|]. destruct (f x) as [y|] eqn:E.
    - rewrite (omap_cons_Some f x y) by exact E. simpl. lia.
    - rewrite (omap_cons_None f x) by exact E. simpl. lia. }
  induction l as [|x l IH]; intros H; [constructor|].
  destruct (f x) as [y|] eqn:E.
  - rewrite (omap_cons_Some f x y) in H by exact E. simpl in H.
    constructor; [rewrite E; eauto|]. apply IH. lia.
  - rewrite (omap_cons_None f x) in H by exact E. simpl in H.
    specialize (Hle l). lia.
Qed.

Lemma pool_layout_length cfg : length (pool_layout cfg) = MAX_ALLOCATORS cfg.
Proof. unfold pool_layout. rewrite length_map, length_seq. reflexivity. Qed.

(** In a pool every slot holds a bank. *)
Lemma pool_full cfg st :
  Inv cfg st -> is_pool cfg = true ->
  length (registry st) = MAX_ALLOCATORS cfg /\
  Forall (fun slot => is_Some (slot_bank st slot)) (_allocators st).
Proof.
  intros HI Hp.
  assert (Hlen : length (registry st) = MAX_ALLOCATORS cfg).
  { rewrite <- (length_map static), (inv_pool _ _ HI Hp). apply pool_layout_length. }
  split; [exact Hlen|]. apply omap_full.
  fold (registry st). rewrite Hlen, (inv_len _ _ HI). reflexivity.
Qed.

Lemma stats_full st :
  Forall (fun slot => is_Some (slot_bank st slot)) (_allocators st) ->
  getTotalMemoryAvailable st = Ok (u32 (sum_available st)) /\
  getTotalMemoryUsed st = Ok (u32 (sum_used st)).
Proof.
  intros Hall. unfold getTotalMemoryAvailable, getTotalMemoryUsed.
  split.
  - apply (total_over_sum _ st (_allocators st) 0 Hall).
  - apply (total_over_sum _ st (_allocators st) 0 Hall).
Qed.

(** C2 (as amended).  In a pool configuration, at every state reachable by
    alloc, free and realloc calls, [getTotalMemoryAvailable()] returns the
    sum over all banks of capacity times block size and
    [getTotalMemoryUsed()] the sum over all banks of in-use count times
    block size, both reduced modulo [2^32] (the result is a
    [size32_type]). *)
Theorem C2_totals_are_sums_mod_2_32 cfg st :
  valid_config cfg -> is_pool cfg = true -> reachable cfg st ->
  getTotalMemoryAvailable st = Ok (u32 (sum_available st)) /\
  getTotalMemoryUsed st = Ok (u32 (sum_used st)).
Proof.
  intros Hv Hp Hr. apply stats_full.
  apply (pool_full cfg); [apply reachable_Inv; assumption|exact Hp].
Qed.

(** ** The scenario configurations *)

Lemma valid_cfg_static : valid_config cfg_static.
Proof. repeat split; try (vm_compute; congruence); try (simpl; lia); auto. Qed.

Lemma valid_cfg_dynamic_large : valid_config cfg_dynamic_large.
Proof. repeat split; try (vm_compute; congruence); try (simpl; lia); auto. Qed.

Lemma valid_cfg_on_demand : valid_config cfg_on_demand.
Proof. repeat split; try (vm_compute; congruence); try (simpl; lia); auto. Qed.

Lemma reachable_static_4x12 : reachable cfg_static st_static_4x12.
Proof.
  apply (alloc_list_reachable cfg_static [12; 12; 12; 12] (bootstrap cfg_static)
           [Some 4; Some 5; Some 6; Some 7]%nat).
  - apply reach_boot.
  - repeat constructor; vm_compute; congruence.
  - vm_compute. reflexivity.
Qed.

Lemma reachable_on_demand_full : reachable cfg_on_demand st_on_demand_full.
Proof.
  apply (alloc_list_reachable cfg_on_demand [100; 1] (bootstrap cfg_on_demand)
           [Some 0; Some 1]%nat).
  - apply reach_boot.
  - repeat constructor; vm_compute; congruence.
  - vm_compute. reflexivity.
Qed.

Lemma C2_witness :
  valid_config cfg_static /\ is_pool cfg_static = true /\
  reachable cfg_static st_static_4x12 /\
  getTotalMemoryAvailable st_static_4x12 = Ok (u32 (sum_available st_static_4x12)) /\
  getTotalMemoryUsed st_static_4x12 = Ok (u32 (sum_used st_static_4x12)).
Proof.
  split; [exact valid_cfg_static|]. split; [reflexivity|].
  split; [exact reachable_static_4x12|].
  apply (C2_totals_are_sums_mod_2_32 cfg_static st_static_4x12).
  - exact valid_cfg_static.
  - reflexivity.
  - exact reachable_static_4x12.
Defined.

(** C2 (counterexample).  With twenty Dynamic banks of 1024 blocks the sum
    of capacity times block size is 8587485184, which no [size32_type]
    holds: [getTotalMemoryAvailable()] returns 4292517888.  Without a pool
    the loop dereferences the empty slots. *)
Lemma C2_sum_overflows :
  reachable cfg_dynamic_large (bootstrap cfg_dynamic_large) /\
  sum_available (bootstrap cfg_dynamic_large) = 8587485184 /\
  getTotalMemoryAvailable (bootstrap cfg_dynamic_large) = Ok 4292517888 /\
  getTotalMemoryUsed (bootstrap cfg_on_demand) = Fault.
Proof.
  split; [apply reach_boot|].
  split; [vm_compute; reflexivity|].
  split; vm_compute; reflexivity.
Qed.

(** ** Order of the Registry *)

Lemma StronglySorted_map_seq (f : nat -> Z) (len : nat) : forall start,
  (forall i j, (start <= i)%nat -> (i < j)%nat -> (j < start + len)%nat -> f i < f j) ->
  StronglySorted Z.lt (map f (seq start len)).
Proof.
  induction len as [|len IH]; intros start Hf; simpl; constructor.
  - apply IH. intros i j Hi Hij Hj. apply Hf; lia.
  - apply Forall_forall. intros y Hy.
    apply list_elem_of_fmap in Hy as [j [-> Hj]].
    apply elem_of_seq in Hj. apply Hf; lia.
Qed.

Lemma pool_sizes_sorted cfg :
  valid_config cfg -> is_pool cfg = true ->
  StronglySorted Z.lt
    (map (fun t : BankKind * Z * Z => snd (fst t)) (pool_layout cfg)).
Proof.
  intros Hv Hp. unfold pool_layout. rewrite map_map. simpl.
  apply StronglySorted_map_seq. intros i j _ Hij Hj.
  apply pool_blockSize_mono; auto.
Qed.




(** ** A failed allocation changes nothing *)








(** ** Spill-up *)

Lemma Allocate_exhausted cfg a st A :
  objects st !! a = Some A -> has_free_block A = false ->
  Allocate cfg a st = Ok (None, st).
Proof.
  intros HA Hf. unfold Allocate, deref. rewrite HA. simpl.
  unfold has_free_block in Hf. destruct (freeList A); [|discriminate].
  destruct (a_kind A); [reflexivity|]. rewrite Hf. reflexivity.
Qed.

Lemma banks_full st :
  Forall (fun slot => is_Some (slot_bank st slot)) (_allocators st) ->
  banks st = map Some (registry st).
Proof.
  unfold banks, registry. generalize (_allocators st) as l.
  induction l as [|x l IH]; intros H; [reflexivity|].
  apply Forall_cons in H as [[A HA] H].
  rewrite (omap_cons_Some _ x A) by exact HA. simpl. rewrite HA, IH by exact H.
  reflexivity.
Qed.

Lemma last_blockSize_banks cfg st :
  last_blockSize cfg st =
  match banks st !! (MAX_ALLOCATORS cfg - 1)%nat with
  | Some (Some A) => Ok (blockSize A)
  | _ => Fault
  end.
Proof.
  unfold last_blockSize, banks, deref. rewrite list_lookup_fmap.
  destruct (_allocators st !! (MAX_ALLOCATORS cfg - 1)%nat) as [[a|]|]; simpl;
    try reflexivity.
  destruct (objects st !! a); reflexivity.
Qed.






(** ** Termination of the spill-up recursion *)

Lemma terminated_bind {A B} (m : outcome A) (k : A -> outcome B) :
  terminated m -> (forall a, m = Ok a -> terminated (k a)) ->
  terminated (obind m k).
Proof. destruct m; simpl; auto. Qed.

Lemma terminated_of_option {A} (o : option A) : terminated (of_option o).
Proof. destruct o; exact I. Qed.

Lemma terminated_deref st a : terminated (deref st a).
Proof. apply terminated_of_option. Qed.

Lemma terminated_find_in cfg st slots size : terminated (find_in cfg st slots size).
Proof.
  induction slots as [|[a|] r IH]; simpl; try exact I.
  apply terminated_bind; [apply terminated_deref|]. intros A _.
  destruct (if is_pool cfg then _ else _); [exact I|exact IH].
Qed.

Lemma terminated_memory_get_allocator cfg size st :
  terminated (memory_get_allocator cfg size st).
Proof.
  unfold memory_get_allocator.
  apply terminated_bind; [apply terminated_find_in|]. intros [a|] _; [exact I|].
  destruct (is_pool cfg); [exact I|].
  destruct (new_bank _ _ _ _ _) as [a st1].
  destruct (insert_allocator a st1) as [[|] st2]; exact I.
Qed.

Lemma terminated_Allocate cfg a st : terminated (Allocate cfg a st).
Proof.
  unfold Allocate. apply terminated_bind; [apply terminated_deref|]. intros A _.
  destruct (freeList A); [|exact I].
  destruct (a_kind A); [exact I|]. destruct (_ <? _); exact I.
Qed.

Lemma terminated_set_block_allocator cfg b a st :
  terminated (set_block_allocator cfg b a st).
Proof.
  unfold set_block_allocator.
  apply terminated_bind; [apply terminated_of_option|]. intros blk _.
  destruct (_ <=? _); exact I.
Qed.

Lemma terminated_last_blockSize cfg st : terminated (last_blockSize cfg st).
Proof.
  unfold last_blockSize.
  apply terminated_bind; [apply terminated_of_option|]. intros slot _.
  apply terminated_bind; [apply terminated_of_option|]. intros a _.
  apply terminated_bind; [apply terminated_deref|]. intros A _. exact I.
Qed.

(** More fuel does not change a result. *)
Lemma memory_alloc_fuel_mono cfg (f : nat) : forall f' n st,
  (f <= f')%nat -> terminated (__memory_alloc f cfg n st) ->
  __memory_alloc f' cfg n st = __memory_alloc f cfg n st.
Proof.
  induction f as [|f IH]; intros f' n st Hle Ht; [contradiction|].
  destruct f' as [|f']; [lia|]. cbn [__memory_alloc] in *.
  destruct (memory_get_allocator cfg n st) as [[[a|] st1]| |]; cbn [obind] in *;
    try reflexivity.
  destruct (Allocate cfg a st1) as [[[b|] st2]| |]; cbn [obind] in *;
    try reflexivity.
  destruct (deref st2 a) as [A| |]; cbn [obind] in *; try reflexivity.
  destruct (last_blockSize cfg st2) as [lastSize| |]; cbn [obind] in *;
    try reflexivity.
  destruct (_ <? _); [|reflexivity]. apply IH; [lia|exact Ht].
Qed.

Lemma spec_bucket_ge t : 0 < t -> t <= spec_bucket t.
Proof.
  intros Ht. unfold spec_bucket.
  destruct ((256 <? t) && (t <=? 396)) eqn:E1; [apply andb_prop in E1 as [_ E]; lia|].
  destruct ((512 <? t) && (t <=? 768)) eqn:E2; [apply andb_prop in E2 as [_ E]; lia|].
  apply next_pow2_ge. exact Ht.
Qed.

Lemma memory_get_allocator_Some cfg size st a st1 :
  Inv cfg st ->
  memory_get_allocator cfg size st = Ok (Some a, st1) ->
  Some a ∈ _allocators st1 /\
  exists A, objects st1 !! a = Some A /\
    if is_pool cfg
    then u32 (size + required_extra_buffer cfg) <= blockSize A
    else blockSize A = bucket cfg (u32 (size + required_extra_buffer cfg)).
Proof.
  intros HI H. destruct (is_pool cfg) eqn:Hp.
  - apply memory_get_allocator_pool in H as [-> Hf]; [|exact Hp].
    apply find_in_Some in Hf. rewrite Hp in Hf. exact Hf.
  - apply memory_get_allocator_on_demand in H; [|exact Hp].
    destruct H as [[Hf [_ ->]]|[_ [st0 [Hnew Hins]]]].
    + apply find_in_Some in Hf. rewrite Hp in Hf. exact Hf.
    + destruct (inv_prefix _ _ HI) as [l [k Hs]].
      rewrite Hs, insert_in_prefix in Hins.
      destruct k as [|k]; destruct Hins as [Heq ->]; [discriminate|].
      injection Heq as ->. simpl in Hnew. injection Hnew as <-. simpl. split.
      * apply elem_of_prefix, elem_of_app. right. left.
      * eexists. split; [apply lookup_insert_eq|reflexivity].
Qed.

(** The request [block_size + 1] resolves to a bank of strictly larger
    block size. *)
Lemma spill_target_larger cfg st curr a st1 :
  valid_config cfg -> Inv cfg st -> 0 <= curr <= 2 ^ 30 ->
  memory_get_allocator cfg (curr + 1) st = Ok (Some a, st1) ->
  Some a ∈ _allocators st1 /\
  exists A, objects st1 !! a = Some A /\ curr < blockSize A.
Proof.
  intros Hv HI Hc H.
  destruct (memory_get_allocator_Some cfg _ st a st1 HI H) as [Hin [A [HA Hsz]]].
  split; [exact Hin|]. exists A. split; [exact HA|].
  destruct Hv as [_ [_ [Hw [_ Hbits]]]].
  destruct (powStart_bounds cfg Hw) as [Hreb _]. rewrite Hreb in Hsz.
  rewrite u32_small in Hsz by lia.
  destruct (is_pool cfg); [lia|].
  rewrite bucket_spec in Hsz by (auto; lia).
  pose proof (spec_bucket_ge (curr + 1 + sizeof_ptr cfg) ltac:(lia)). lia.
Qed.

Lemma filter_above_mono (l : list Z) s x :
  s <= x ->
  (length (filter (fun b => (x < b)%Z) l) <= length (filter (fun b => (s < b)%Z) l))%nat.
Proof.
  intros Hsx. induction l as [|y l IH]; [reflexivity|].
  rewrite !filter_cons. repeat case_decide; simpl; lia.
Qed.

Lemma filter_above_lt (l : list Z) s x :
  x ∈ l -> s < x ->
  (length (filter (fun b => (x < b)%Z) l) < length (filter (fun b => (s < b)%Z) l))%nat.
Proof.
  intros Hx Hsx. induction l as [|y l IH]; [inversion Hx|].
  rewrite !filter_cons. apply elem_of_cons in Hx as [<-|Hx].
  - pose proof (filter_above_mono l s x ltac:(lia)).
    repeat case_decide; simpl; lia.
  - specialize (IH Hx). repeat case_decide; simpl; lia.
Qed.

Lemma filter_not_all (l : list Z) s x :
  x ∈ l -> ~ s < x ->
  (length (filter (fun b => (s < b)%Z) l) < length l)%nat.
Proof.
  intros Hx Hsx. induction l as [|y l IH]; [inversion Hx|].
  pose proof (length_filter (fun b => (s < b)%Z) l) as Hle.
  rewrite filter_cons. apply elem_of_cons in Hx as [<-|Hx].
  - case_decide; [contradiction|]. simpl. lia.
  - specialize (IH Hx). case_decide; simpl; lia.
Qed.

Lemma registry_size_elem st A : A ∈ registry st -> blockSize A ∈ registry_sizes st.
Proof. intros H. unfold registry_sizes. apply list_elem_of_fmap. eauto. Qed.

(** When the last slot is populated, every slot is. *)
Lemma last_slot_full cfg st lastSize :
  valid_config cfg -> Inv cfg st ->
  last_blockSize cfg st = Ok lastSize ->
  length (registry st) = MAX_ALLOCATORS cfg /\
  exists l, _allocators st = map Some l /\
  exists L, L ∈ registry st /\ blockSize L = lastSize.
Proof.
  intros Hv HI H. unfold last_blockSize in H. inv_ok H.
  apply of_option_Ok in Hx, Hx0. apply deref_Ok in Hx1. injection H as <-.
  destruct (inv_prefix _ _ HI) as [l [k Hs]].
  pose proof (inv_len _ _ HI) as Hlen. rewrite Hs in Hlen.
  rewrite length_app, length_map, length_replicate in Hlen.
  assert (Hk : k = 0%nat).
  { destruct k as [|k]; [reflexivity|]. exfalso.
    rewrite Hs, Hx0 in Hx. rewrite lookup_app_r in Hx by (rewrite length_map; lia).
    apply lookup_replicate in Hx as [? _]. discriminate. }
  subst k. simpl in Hs. rewrite app_nil_r in Hs.
  assert (Hin : Some x0 ∈ _allocators st).
  { eapply list_elem_of_lookup_2. rewrite <- Hx0. exact Hx. }
  split; [|exists l; split; [exact Hs|]; exists x1; split;
             [eapply registry_elem; eauto|reflexivity]].
  assert (Hall : Forall (fun slot => is_Some (slot_bank st slot)) (_allocators st)).
  { apply Forall_forall. intros [a|] Ha.
    - simpl. apply (inv_deref _ _ HI). exact Ha.
    - rewrite Hs in Ha. apply list_elem_of_fmap in Ha as [? [? _]]. discriminate. }
  pose proof (banks_full st Hall) as Hb.
  apply (f_equal length) in Hb. unfold banks in Hb.
  rewrite !length_map in Hb. rewrite <- Hb, Hs, length_map. lia.
Qed.

Lemma omap_length_le {A B} (f : A -> option B) (l : list A) :
  (length (omap f l) <= length l)%nat.
Proof.
  induction l as [|x l IH]; [simpl; lia|]. destruct (f x) as [y|] eqn:E.
  - rewrite (omap_cons_Some f x y) by exact E. simpl. lia.
  - rewrite (omap_cons_None f x) by exact E. simpl. lia.
Qed.

(** A Registry with [MAX_ALLOCATORS] banks has no free slot. *)
Lemma full_registry_slots cfg st :
  Inv cfg st -> length (registry st) = MAX_ALLOCATORS cfg ->
  exists l, _allocators st = map Some l.
Proof.
  intros HI Hfull. destruct (inv_prefix _ _ HI) as [l [k Hs]].
  pose proof (inv_len _ _ HI) as Hlen.
  rewrite Hs, length_app, length_map, length_replicate in Hlen.
  rewrite (registry_prefix st l k Hs) in Hfull.
  pose proof (omap_length_le (fun a => objects st !! a) l) as Hle.
  assert (k = 0%nat) as -> by lia.
  exists l. rewrite Hs. simpl. apply app_nil_r.
Qed.

Lemma memory_get_allocator_full cfg size st a st1 :
  Inv cfg st -> length (registry st) = MAX_ALLOCATORS cfg ->
  memory_get_allocator cfg size st = Ok (Some a, st1) ->
  st1 = st.
Proof.
  intros HI Hfull H. destruct (is_pool cfg) eqn:Hp.
  - apply memory_get_allocator_pool in H as [-> _]; auto.
  - apply memory_get_allocator_on_demand in H; [|exact Hp].
    destruct H as [[_ [_ ->]]|[_ [st0 [_ Hins]]]]; [reflexivity|].
    destruct (full_registry_slots cfg st HI Hfull) as [l Hs].
    rewrite Hs, insert_in_full in Hins. destruct Hins as [? _]. discriminate.
Qed.

(** The block size of a bank below the last one is at most [2^30]. *)
Lemma below_last_small cfg st a A lastSize :
  Inv cfg st -> objects st !! a = Some A ->
  last_blockSize cfg st = Ok lastSize -> blockSize A < lastSize ->
  0 <= blockSize A <= 2 ^ 30.
Proof.
  intros HI HA Hlast Hlt. unfold last_blockSize in Hlast. inv_ok Hlast.
  apply deref_Ok in Hx1. injection Hlast as <-.
  destruct (inv_sizes _ _ HI a A HA) as [H0 [H1 _]].
  destruct (inv_sizes _ _ HI x0 x1 Hx1) as [_ [H2 _]].
  unfold GetBlockSize in Hlt. lia.
Qed.

Lemma spill_terminates cfg (f : nat) : forall st curr,
  valid_config cfg -> Inv cfg st ->
  length (registry st) = MAX_ALLOCATORS cfg ->
  0 <= curr <= 2 ^ 30 ->
  (banks_above st curr <= f)%nat ->
  terminated (__memory_alloc (S f) cfg (curr + 1) st).
Proof.
  induction f as [|f IH]; intros st curr Hv HI Hfull Hc Hm;
    cbn [__memory_alloc];
    (apply terminated_bind; [apply terminated_memory_get_allocator|]);
    intros [[a|] st1] Hget; try exact I;
    (apply terminated_bind; [apply terminated_Allocate|]);
    intros [[b|] st2] Hal;
    try (apply terminated_bind; [apply terminated_set_block_allocator|];
         intros; exact I);
    (apply terminated_bind; [apply terminated_deref|]); intros A HA;
    (apply terminated_bind; [apply terminated_last_blockSize|]);
    intros lastSize Hlast;
    destruct (Z.ltb_spec (GetBlockSize A) lastSize) as [Hlt|Hge]; try exact I;
    apply Allocate_None in Hal as [-> _]; apply deref_Ok in HA;
    destruct (spill_target_larger cfg st curr a st1 Hv HI Hc Hget)
      as [Hin [A' [HA' Hgt]]];
    rewrite HA in HA'; injection HA' as <-;
    pose proof (memory_get_allocator_full cfg _ st a st1 HI Hfull Hget) as ->;
    assert (HAin : A ∈ registry st) by (eapply registry_elem; eauto);
    assert (Hlt' : (banks_above st (blockSize A) < banks_above st curr)%nat)
      by (apply filter_above_lt; [apply registry_size_elem; exact HAin|exact Hgt]).
  - lia.
  - unfold GetBlockSize in *.
    pose proof (below_last_small cfg st a A lastSize HI HA Hlast Hlt) as Hb.
    rewrite u32_small by lia. apply IH; auto; lia.
Qed.

Lemma memory_alloc_terminates cfg st n :
  valid_config cfg -> Inv cfg st ->
  terminated (__memory_alloc (S (MAX_ALLOCATORS cfg)) cfg n st).
Proof.
  intros Hv HI. cbn [__memory_alloc].
  apply terminated_bind; [apply terminated_memory_get_allocator|].
  intros [[a|] st1] Hget; [|exact I].
  apply terminated_bind; [apply terminated_Allocate|].
  intros [[b|] st2] Hal.
  { apply terminated_bind; [apply terminated_set_block_allocator|]. intros; exact I. }
  apply terminated_bind; [apply terminated_deref|]. intros A HA.
  apply terminated_bind; [apply terminated_last_blockSize|]. intros lastSize Hlast.
  destruct (Z.ltb_spec (GetBlockSize A) lastSize) as [Hlt|Hge]; [|exact I].
  apply Allocate_None in Hal as [-> _]. apply deref_Ok in HA.
  assert (HI1 : Inv cfg st1) by (eapply memory_get_allocator_Inv; eauto).
  destruct (memory_get_allocator_Some cfg n st a st1 HI Hget) as [Hin _].
  destruct (last_slot_full cfg st1 lastSize Hv HI1 Hlast) as [Hfull _].
  pose proof (below_last_small cfg st1 a A lastSize HI1 HA Hlast Hlt) as Hb.
  unfold GetBlockSize. rewrite u32_small by lia.
  destruct Hv as [Hm Hv'].
  replace (MAX_ALLOCATORS cfg) with (S (MAX_ALLOCATORS cfg - 1)) at 1 by lia.
  apply spill_terminates; auto; [split; auto|].
  assert (HAin : blockSize A ∈ registry_sizes st1)
    by (apply registry_size_elem; eapply registry_elem; eauto).
  pose proof (filter_not_all (registry_sizes st1) (blockSize A) (blockSize A)
                HAin ltac:(lia)) as Hlt'.
  unfold banks_above. unfold registry_sizes in Hlt' at 2.
  rewrite length_map, Hfull in Hlt'. lia.
Qed.

(** In a pool no pointer the Router follows is null or dangling. *)
Lemma find_in_Ok cfg st slots size :
  (forall a, Some a ∈ slots -> is_Some (objects st !! a)) ->
  exists r, find_in cfg st slots size = Ok r.
Proof.
  induction slots as [|[a|] r IH]; intros H; simpl; eauto.
  destruct (H a) as [A HA]; [left|]. unfold deref. rewrite HA. simpl.
  destruct (if is_pool cfg then _ else _); [eauto|].
  apply IH. intros a' Ha'. apply H. right. exact Ha'.
Qed.

Lemma pool_alloc_Ok cfg (fuel : nat) : forall n st,
  valid_config cfg -> is_pool cfg = true -> Inv cfg st ->
  terminated (__memory_alloc fuel cfg n st) ->
  exists r, __memory_alloc fuel cfg n st = Ok r.
Proof.
  induction fuel as [|f IH]; intros n st Hv Hp HI Ht; [contradiction|].
  cbn [__memory_alloc] in *.
  destruct (find_in_Ok cfg st (_allocators st)
              (u32 (n + required_extra_buffer cfg)) (inv_deref _ _ HI)) as [r Hf].
  assert (Hget : memory_get_allocator cfg n st = Ok (r, st)).
  { unfold memory_get_allocator, find_allocator. rewrite Hp, Hf. simpl.
    destruct r; reflexivity. }
  rewrite Hget in *. cbn [obind] in *. destruct r as [a|]; [|eauto].
  apply find_in_Some in Hf as [Hin [A [HA _]]].
  destruct (has_free_block A) eqn:Hfree.
  - destruct (Allocate_free_block cfg a st A HA Hfree) as [b [st2 Hal]].
    rewrite Hal. cbn [obind].
    destruct (Allocate_Some cfg a st b st2 Hal (inv_free _ _ HI))
      as [_ [_ [_ [_ [[blk [Hblk _]] _]]]]].
    pose proof (Allocate_Inv cfg a st _ st2 HI Hal) as HI2.
    unfold set_block_allocator. rewrite Hblk. simpl.
    replace (required_extra_buffer cfg <=? b_size blk) with true; [eauto|].
    symmetry. apply Z.leb_le. eapply (inv_blocks _ _ HI2 Hp); eauto.
  - rewrite (Allocate_exhausted cfg a st A HA Hfree) in *. cbn [obind] in *.
    unfold deref in *. rewrite HA in *. cbn [of_option obind] in *.
    destruct (pool_full cfg st HI Hp) as [Hlen Hall].
    assert (Hlast : exists lastSize, last_blockSize cfg st = Ok lastSize).
    { rewrite last_blockSize_banks, (banks_full st Hall), list_lookup_fmap.
      destruct (lookup_lt_is_Some_2 (registry st) (MAX_ALLOCATORS cfg - 1)) as [L HL].
      - destruct Hv. lia.
      - rewrite HL. simpl. eauto. }
    destruct Hlast as [lastSize Hlast]. rewrite Hlast in *. cbn [obind] in *.
    destruct (_ <? _); [|eauto]. apply IH; auto.
Qed.

(** C10.  The spill-up recursion of [__memory_alloc] terminates for every
    request: the call returns within [MAX_ALLOCATORS] recursive calls (more
    fuel changes nothing), in a pool it returns a result, and a recursive
    call, entered only below the block size of the last bank with the size
    [block_size + 1], resolves to a bank of strictly larger block size. *)
Theorem C10_spill_up_terminates cfg st n :
  valid_config cfg -> reachable cfg st ->
  terminated (__memory_alloc (S (MAX_ALLOCATORS cfg)) cfg n st) /\
  (forall fuel, (S (MAX_ALLOCATORS cfg) <= fuel)%nat ->
     __memory_alloc fuel cfg n st
     = __memory_alloc (S (MAX_ALLOCATORS cfg)) cfg n st) /\
  (is_pool cfg = true ->
     exists r, __memory_alloc (S (MAX_ALLOCATORS cfg)) cfg n st = Ok r) /\
  (forall a A lastSize a' st1,
     objects st !! a = Some A ->
     last_blockSize cfg st = Ok lastSize -> blockSize A < lastSize ->
     memory_get_allocator cfg (blockSize A + 1) st = Ok (Some a', st1) ->
     exists A', objects st1 !! a' = Some A' /\ blockSize A < blockSize A').
Proof.
  intros Hv Hr. pose proof (reachable_Inv cfg st Hv Hr) as HI.
  pose proof (memory_alloc_terminates cfg st n Hv HI) as Ht.
  split; [exact Ht|]. split; [|split].
  - intros fuel Hle. apply memory_alloc_fuel_mono; assumption.
  - intros Hp. apply pool_alloc_Ok; assumption.
  - intros a A lastSize a' st1 HA Hlast Hlt Hget.
    pose proof (below_last_small cfg st a A lastSize HI HA Hlast Hlt) as Hb.
    destruct (spill_target_larger cfg st (blockSize A) a' st1 Hv HI Hb Hget)
      as [_ H]. exact H.
Qed.

Lemma C10_witness :
  valid_config cfg_static /\ reachable cfg_static st_static_4x12 /\
  terminated (__memory_alloc 9 cfg_static 12 st_static_4x12) /\
  (exists r, __memory_alloc 9 cfg_static 12 st_static_4x12 = Ok r).
Proof.
  split; [exact valid_cfg_static|]. split; [exact reachable_static_4x12|].
  destruct (C10_spill_up_terminates cfg_static st_static_4x12 12
              valid_cfg_static reachable_static_4x12) as [Ht [_ [Hok _]]].
  split; [exact Ht|]. exact (Hok eq_refl).
Defined.

(** ** Zero-size requests *)








(** ** Bucketing and bank creation without a pool *)

Lemma registry_length_prefix cfg st l k :
  Inv cfg st -> _allocators st = map Some l ++ replicate k None ->
  length (registry st) = length l.
Proof.
  intros HI Hs. rewrite (registry_prefix st l k Hs).
  assert (H : forall a, a ∈ l -> is_Some (objects st !! a)).
  { intros a Ha. apply (inv_deref _ _ HI). rewrite Hs. apply elem_of_prefix. exact Ha. }
  clear Hs. induction l as [|x l IH]; [reflexivity|].
  destruct (H x) as [A HA]; [left|].
  rewrite (omap_cons_Some _ x A) by exact HA. simpl. f_equal.
  apply IH. intros a Ha. apply H. right. exact Ha.
Qed.

Lemma find_allocator_Ok cfg st size :
  Inv cfg st -> exists r, find_allocator cfg size st = Ok r.
Proof. intros HI. apply find_in_Ok. apply (inv_deref _ _ HI). Qed.




(** C7 (the code at the failing input).  No pool, both slots of the
    Registry taken: [alloc(20)] constructs a 32-byte bank, fails to insert
    it and returns null; the bank stays allocated at address 2 and no slot
    of the array points to it. *)
Theorem C7_rejected_bank_is_leaked :
  reachable cfg_on_demand st_on_demand_full /\
  _allocators st_on_demand_full = [Some 0; Some 1]%nat /\
  objects st_on_demand_full !! 2%nat = None /\
  __memory_alloc 3 cfg_on_demand 20 st_on_demand_full
    = Ok (None, st_on_demand_refused) /\
  _allocators st_on_demand_refused = [Some 0; Some 1]%nat /\
  objects st_on_demand_refused !! 2%nat = Some (mkAllocator DynamicBank 32 4 0 []).
Proof.
  split; [exact reachable_on_demand_full|].
  repeat apply conj; vm_compute; reflexivity.
Qed.

(** ** Realloc *)

Lemma realloc_null fuel cfg n st :
  __memory_realloc fuel cfg None n st = __memory_alloc fuel cfg n st.
Proof. reflexivity. Qed.

Lemma realloc_zero fuel cfg old st :
  __memory_realloc fuel cfg (Some old) 0 st
  = obind (__memory_free (Some old) st) (fun st1 => Ok (None, st1)).
Proof. reflexivity. Qed.

Lemma realloc_alloc_fails fuel cfg old n st st1 :
  n <> 0 -> __memory_alloc fuel cfg n st = Ok (None, st1) ->
  __memory_realloc fuel cfg (Some old) n st = Ok (None, st1).
Proof.
  intros Hn H. unfold __memory_realloc. apply Z.eqb_neq in Hn. rewrite Hn, H.
  reflexivity.
Qed.

(** As long as the usable size of the old block fits [size_type], the
    number of bytes copied is the minimum the specification names. *)
Lemma realloc_copy_len_small cfg bs n :
  0 <= bs - sizeof_ptr cfg < 2 ^ 16 ->
  realloc_copy_len cfg bs n = Z.min (bs - sizeof_ptr cfg) n.
Proof.
  intros H. unfold realloc_copy_len. rewrite u16_small by exact H.
  destruct (Z.ltb_spec (bs - sizeof_ptr cfg) n); lia.
Qed.

(** A successful realloc: the bytes are copied into the new block, the old
    block goes back to its bank. *)
Lemma realloc_moves fuel cfg old new n st st1 oblk oa OA nblk :
  n <> 0 -> new <> old ->
  __memory_alloc fuel cfg n st = Ok (Some new, st1) ->
  memory st1 !! old = Some oblk -> b_tag oblk = Some oa ->
  objects st1 !! oa = Some OA ->
  memory st1 !! new = Some nblk ->
  let k := Z.to_nat (realloc_copy_len cfg (blockSize OA) n) in
  (k <= length (b_data oblk))%nat -> (k <= length (b_data nblk))%nat ->
  exists st3,
    __memory_realloc fuel cfg (Some old) n st = Ok (Some new, st3) /\
    memory st3 !! new
      = Some (mkBlock (b_owner nblk) (b_size nblk) (b_tag nblk)
                (take k (b_data oblk) ++ drop k (b_data nblk))) /\
    memory st3 !! old
      = Some (mkBlock (b_owner oblk) (b_size oblk) None (b_data oblk)) /\
    objects st3 !! oa
      = Some (mkAllocator (a_kind OA) (blockSize OA) (totalBlocks OA)
                (numAllocations OA - 1) (old :: freeList OA)).
Proof.
  intros Hn Hne Hal Hold Htag HOA Hnew k Hk1 Hk2.
  unfold __memory_realloc. apply Z.eqb_neq in Hn. rewrite Hn, Hal. cbn [obind].
  unfold get_block_allocator. rewrite Hold. cbn [of_option obind]. rewrite Htag.
  cbn [of_option obind]. unfold deref. rewrite HOA. cbn [of_option obind].
  unfold memcpy. rewrite Hnew, Hold. cbn [of_option obind].
  unfold GetBlockSize. fold k.
  replace ((k <=? length (b_data oblk))%nat && (k <=? length (b_data nblk))%nat)
    with true
    by (symmetry; apply andb_true_iff; split; apply Nat.leb_le; assumption).
  cbn [obind]. unfold __memory_free, get_block_allocator, Deallocate, deref. simpl.
  repeat (first [rewrite lookup_insert_ne by exact Hne
                |rewrite Hold|rewrite Htag|rewrite HOA]; simpl).
  eexists. split; [reflexivity|]. simpl.
  rewrite lookup_insert_ne by congruence. rewrite !lookup_insert_eq. auto.
Qed.

(** A run that returns ends in the state [run_state] names. *)
Lemma run_state_Ok {A} (dflt : State) (o : outcome (A * State)) (r : A) :
  match o with Ok x => Some (fst x) | _ => None end = Some r ->
  o = Ok (r, run_state dflt o).
Proof.
  destruct o as [[r' s]| |]; simpl; intros H;
    [injection H as ->; reflexivity|discriminate|discriminate].
Qed.

(** C3 (the code at the failing input).  The old block belongs to the
    131072-byte bank, so its usable size is 131068 and [realloc(p, 100000)]
    should copy 100000 bytes; [oldSize] is a [size_type] and holds 65532,
    and only 65532 bytes arrive: byte 65532 of the new block is not the
    client's. *)
Theorem C3_realloc_copies_truncated_length :
  block_bank_size st_big_filled 0 = Some 131072 /\
  Z.min (131072 - sizeof_ptr cfg_on_demand) 100000 = 100000 /\
  realloc_copy_len cfg_on_demand 131072 100000 = 65532 /\
  byte_at st_big_filled 0 65531 = Some 1 /\
  byte_at st_big_filled 0 65532 = Some 1 /\
  __memory_realloc 3 cfg_on_demand (Some 0%nat) 100000 st_big_filled
    = Ok (Some 1%nat, st_big_realloc) /\
  byte_at st_big_realloc 1 65531 = Some 1 /\
  byte_at st_big_realloc 1 65532 = Some 0.
Proof.
  do 5 (apply conj; [vm_compute; reflexivity|]).
  apply conj; [|apply conj; vm_compute; reflexivity].
  unfold st_big_realloc. apply run_state_Ok. vm_compute. reflexivity.
Qed.

(** ** Reference-counted Bootstrap *)








(** * Further properties of the code *)

(** ** [nextHigher] *)

(** X1.  For [0 < k <= 2^(bits-1)] the value of [nextHigher<T>(k)] is the
    least power of two that is at least [k] (12 gives 16, as the comment of
    the function says). *)
Theorem nextHigher_least_power_of_two bits k :
  0 < bits -> 0 < k <= 2 ^ (bits - 1) ->
  exists e, 0 <= e /\ nextHigher bits k = 2 ^ e /\ k <= 2 ^ e /\
    forall e', 0 <= e' -> k <= 2 ^ e' -> 2 ^ e <= 2 ^ e'.
Proof.
  intros Hbits Hk. exists (Z.log2_up k).
  split; [apply Z.log2_up_nonneg|].
  split; [apply nextHigher_next_pow2; assumption|].
  split; [apply next_pow2_ge; lia|].
  intros e' He' Hle. apply next_pow2_least; assumption.
Qed.

Lemma nextHigher_least_power_of_two_witness :
  0 < 32 /\ 0 < 12 <= 2 ^ (32 - 1) /\ nextHigher 32 12 = 16 /\
  exists e, 0 <= e /\ nextHigher 32 12 = 2 ^ e /\ 12 <= 2 ^ e /\
    forall e', 0 <= e' -> 12 <= 2 ^ e' -> 2 ^ e <= 2 ^ e'.
Proof.
  split; [lia|]. split; [simpl; lia|]. split; [vm_compute; reflexivity|].
  apply (nextHigher_least_power_of_two 32 12); simpl; lia.
Defined.

(** X2.  [nextHigher<T>] overflows to 0: for [k = 0] (the decrement wraps
    to all ones) and for every [k] above [2^(bits-1)] (the next power of two
    is [2^bits]). *)
Theorem nextHigher_wraps_to_zero bits k :
  0 < bits -> k = 0 \/ 2 ^ (bits - 1) < k < 2 ^ bits ->
  nextHigher bits k = 0.
Proof.
  intros Hbits [->|Hk]; [|apply nextHigher_top; assumption].
  unfold nextHigher.
  assert (Hpow : 2 ^ bits = 2 * 2 ^ (bits - 1)).
  { replace bits with (Z.succ (bits - 1)) at 1 by lia.
    apply Z.pow_succ_r. lia. }
  assert (Hpos : 0 < 2 ^ (bits - 1)) by (apply Z.pow_pos_nonneg; lia).
  assert (Hm1 : wrap bits (0 - 1) = 2 ^ bits - 1).
  { unfold wrap. replace (0 - 1) with (2 ^ bits - 1 + (-1) * 2 ^ bits) by lia.
    rewrite Z_mod_plus_full. apply Z.mod_small. lia. }
  rewrite Hm1, smear_ones by lia.
  rewrite (Z.log2_unique (2 ^ bits - 1) (bits - 1)).
  - replace (bits - 1 + 1) with bits by lia. rewrite Z.ones_equiv.
    replace (Z.pred (2 ^ bits) + 1) with (2 ^ bits) by lia.
    unfold wrap. apply Z_mod_same_full.
  - lia.
  - replace (Z.succ (bits - 1)) with bits by lia. lia.
Qed.

Lemma nextHigher_wraps_to_zero_witness :
  0 < 32 /\ (2147483649 = 0 \/ 2 ^ (32 - 1) < 2147483649 < 2 ^ 32) /\
  nextHigher 32 2147483649 = 0.
Proof.
  split; [lia|]. split; [right; simpl; lia|].
  apply (nextHigher_wraps_to_zero 32 2147483649); [lia|right; simpl; lia].
Defined.

(** ** [insert_allocator] *)

Lemma insert_in_first_free slots a :
  (exists i, slots !! i = Some None /\
     (forall j, (j < i)%nat -> exists x, slots !! j = Some (Some x)) /\
     insert_in slots a = Some (<[i := Some a]> slots)) \/
  (Forall (fun slot => slot <> None) slots /\ insert_in slots a = None).
Proof.
  induction slots as [|[x|] r IH]; simpl.
  - right. split; [constructor|reflexivity].
  - destruct IH as [[i [Hi [Hlt Hins]]]|[Hall Hins]].
    + left. exists (S i). split; [exact Hi|]. split.
      * intros [|j] Hj; [eauto|]. apply Hlt. lia.
      * rewrite Hins. reflexivity.
    + right. split; [constructor; [discriminate|exact Hall]|].
      rewrite Hins. reflexivity.
  - left. exists 0%nat. split; [reflexivity|]. split; [intros j Hj; lia|reflexivity].
Qed.

(** X3.  [insert_allocator] stores the pointer in the first null slot of
    [_allocators] and leaves every other slot as it was; when no slot is
    null it returns false and changes nothing. *)
Theorem insert_allocator_first_free_slot a st :
  (exists i, _allocators st !! i = Some None /\
     (forall j, (j < i)%nat -> exists x, _allocators st !! j = Some (Some x)) /\
     insert_allocator a st
     = (true, with_allocators (<[i := Some a]> (_allocators st)) st)) \/
  (Forall (fun slot => slot <> None) (_allocators st) /\
   insert_allocator a st = (false, st)).
Proof.
  unfold insert_allocator.
  destruct (insert_in_first_free (_allocators st) a)
    as [[i [Hi [Hlt Hins]]]|[Hall Hins]]; rewrite Hins.
  - left. exists i. auto.
  - right. auto.
Qed.

(** ** [find_allocator] *)

Lemma find_in_split cfg st slots size a :
  find_in cfg st slots size = Ok (Some a) ->
  exists pre post A,
    slots = pre ++ Some a :: post /\ objects st !! a = Some A /\
    (if is_pool cfg then size <= blockSize A else blockSize A = size) /\
    forall B, B ∈ omap (slot_bank st) pre ->
      if is_pool cfg then blockSize B < size else blockSize B <> size.
Proof.
  induction slots as [|slot r IH]; simpl; [discriminate|].
  destruct slot as [x|]; [|discriminate].
  intros H. inv_ok H. apply deref_Ok in Hx. unfold GetBlockSize in H.
  destruct (if is_pool cfg then size <=? blockSize x0 else blockSize x0 =? size)
    eqn:Ec.
  - injection H as <-. exists [], r, x0. split; [reflexivity|]. split; [exact Hx|].
    split.
    + destruct (is_pool cfg); [apply Z.leb_le|apply Z.eqb_eq]; exact Ec.
    + intros B HB. inversion HB.
  - destruct (IH H) as [pre [post [A [-> [HA [Hc Hpre]]]]]].
    exists (Some x :: pre), post, A. split; [reflexivity|]. split; [exact HA|].
    split; [exact Hc|]. intros B HB.
    rewrite (omap_cons_Some _ (Some x) x0) in HB by exact Hx.
    apply elem_of_cons in HB as [->|HB]; [|apply Hpre; exact HB].
    destruct (is_pool cfg); [apply Z.leb_gt|apply Z.eqb_neq]; exact Ec.
Qed.

Lemma StronglySorted_app_tail (l1 l2 : list Z) x :
  StronglySorted Z.lt (l1 ++ x :: l2) -> Forall (Z.lt x) l2.
Proof.
  induction l1 as [|y l1 IH]; simpl; intros H;
    apply StronglySorted_inv in H as [H Hall]; auto.
Qed.

(** X4.  In a pool [find_allocator(size)] returns the smallest bank that
    fits: the bank it returns has a block size of at least [size] and no
    bank of the Registry that fits is smaller; it returns null exactly when
    [size] exceeds the block size of every bank. *)
Theorem find_allocator_smallest_fit cfg st size :
  valid_config cfg -> is_pool cfg = true -> reachable cfg st ->
  (exists r, find_allocator cfg size st = Ok r) /\
  (forall a, find_allocator cfg size st = Ok (Some a) ->
     exists A, A ∈ registry st /\ objects st !! a = Some A /\
       size <= blockSize A /\
       forall B, B ∈ registry st -> size <= blockSize B ->
         blockSize A <= blockSize B) /\
  (find_allocator cfg size st = Ok None <->
   forall B, B ∈ registry st -> blockSize B < size).
Proof.
  intros Hv Hp Hr. pose proof (reachable_Inv cfg st Hv Hr) as HI.
  destruct (find_allocator_Ok cfg st size HI) as [r Hf].
  split; [eauto|]. split.
  - intros a Ha. unfold find_allocator in Ha.
    destruct (find_in_split cfg st _ size a Ha) as [pre [post [A [Hs [HA [Hc Hpre]]]]]].
    rewrite Hp in Hc, Hpre.
    assert (Hreg : registry st
                   = omap (slot_bank st) pre ++ A :: omap (slot_bank st) post).
    { unfold registry. rewrite Hs, omap_app.
      rewrite (omap_cons_Some _ (Some a) A) by exact HA. reflexivity. }
    exists A. split; [rewrite Hreg; apply elem_of_app; right; left|].
    split; [exact HA|]. split; [exact Hc|].
    intros B HB Hfit. rewrite Hreg in HB.
    apply elem_of_app in HB as [HB|HB]; [specialize (Hpre B HB); lia|].
    apply elem_of_cons in HB as [->|HB]; [lia|].
    assert (Hs' : StronglySorted Z.lt (registry_sizes st)).
    { rewrite registry_sizes_static, (inv_pool _ _ HI Hp).
      apply pool_sizes_sorted; assumption. }
    unfold registry_sizes in Hs'. rewrite Hreg, map_app in Hs'. simpl in Hs'.
    apply StronglySorted_app_tail in Hs'. rewrite Forall_forall in Hs'.
    assert (blockSize A < blockSize B); [|lia].
    apply Hs'. apply list_elem_of_fmap. eauto.
  - split.
    + intros Hn B HB.
      pose proof (find_allocator_None_registry cfg st size HI Hn B HB) as H.
      rewrite Hp in H. exact H.
    + intros Hall. destruct r as [a|]; [|exact Hf]. exfalso.
      pose proof Hf as Hf'. apply find_in_Some in Hf' as [Hin [A [HA Hc]]].
      rewrite Hp in Hc.
      specialize (Hall A (registry_elem st a A Hin HA)). lia.
Qed.

Lemma find_allocator_smallest_fit_witness :
  valid_config cfg_static /\ is_pool cfg_static = true /\
  reachable cfg_static st_static_4x12 /\
  find_allocator cfg_static 17 st_static_4x12 = Ok (Some 2%nat) /\
  (find_allocator cfg_static 401 st_static_4x12 = Ok None <->
   forall B, B ∈ registry st_static_4x12 -> blockSize B < 401).
Proof.
  split; [exact valid_cfg_static|]. split; [reflexivity|].
  split; [exact reachable_static_4x12|]. split; [vm_compute; reflexivity|].
  exact (proj2 (proj2 (find_allocator_smallest_fit cfg_static st_static_4x12 401
                         valid_cfg_static eq_refl reachable_static_4x12))).
Defined.

(** X5.  Without a pool [find_allocator(size)] returns the bank whose block
    size is exactly [size], and null exactly when the Registry has no bank
    of that size. *)
Theorem find_allocator_exact_size cfg st size :
  valid_config cfg -> is_pool cfg = false -> reachable cfg st ->
  (exists r, find_allocator cfg size st = Ok r) /\
  (forall a, find_allocator cfg size st = Ok (Some a) ->
     exists A, A ∈ registry st /\ objects st !! a = Some A /\ blockSize A = size) /\
  (find_allocator cfg size st = Ok None <-> size ∉ registry_sizes st).
Proof.
  intros Hv Hp Hr. pose proof (reachable_Inv cfg st Hv Hr) as HI.
  destruct (find_allocator_Ok cfg st size HI) as [r Hf].
  split; [eauto|]. split.
  - intros a Ha. apply find_in_Some in Ha as [Hin [A [HA Hc]]].
    rewrite Hp in Hc. exists A. split; [eapply registry_elem; eauto|auto].
  - split.
    + intros Hn Hin. apply list_elem_of_fmap in Hin as [B [HB Hin]].
      pose proof (find_allocator_None_registry cfg st size HI Hn B Hin) as H.
      rewrite Hp in H. congruence.
    + intros Hnin. destruct r as [a|]; [|exact Hf]. exfalso.
      apply find_in_Some in Hf as [Hin [A [HA Hc]]]. rewrite Hp in Hc.
      apply Hnin. rewrite <- Hc. apply registry_size_elem.
      eapply registry_elem; eauto.
Qed.

Lemma find_allocator_exact_size_witness :
  valid_config cfg_on_demand /\ is_pool cfg_on_demand = false /\
  reachable cfg_on_demand st_on_demand_full /\
  find_allocator cfg_on_demand 8 st_on_demand_full = Ok (Some 1%nat) /\
  (find_allocator cfg_on_demand 16 st_on_demand_full = Ok None <->
   16 ∉ registry_sizes st_on_demand_full).
Proof.
  split; [exact valid_cfg_on_demand|]. split; [reflexivity|].
  split; [exact reachable_on_demand_full|]. split; [vm_compute; reflexivity|].
  exact (proj2 (proj2 (find_allocator_exact_size cfg_on_demand st_on_demand_full 16
                         valid_cfg_on_demand eq_refl reachable_on_demand_full))).
Defined.

(** ** Teardown *)

Lemma delete_banks_spec (l : list nat) : forall st,
  let st' := foldl (fun s a => delete_bank a s) st l in
  _allocators st' = _allocators st /\
  m_srefCount st' = m_srefCount st /\
  (forall a, objects st' !! a = if decide (a ∈ l) then None else objects st !! a) /\
  (forall b blk, memory st' !! b = Some blk <->
     memory st !! b = Some blk /\ b_owner blk ∉ l).
Proof.
  induction l as [|x l IH]; intros st; simpl.
  - split; [reflexivity|]. split; [reflexivity|]. split; [reflexivity|].
    intros b blk. split; [intros H; split; [exact H|]; intros Hin; inversion Hin|].
    intros [H _]. exact H.
  - destruct (IH (delete_bank x st)) as [Hs [Hc [Ho Hm]]].
    split; [rewrite Hs; reflexivity|]. split; [rewrite Hc; reflexivity|]. split.
    + intros a. rewrite Ho. simpl.
      destruct (decide (a ∈ l)) as [Hin|Hnin], (decide (a ∈ x :: l)) as [Hin'|Hnin'];
        try reflexivity.
      * exfalso. apply Hnin'. right. exact Hin.
      * apply elem_of_cons in Hin' as [->|?]; [apply lookup_delete_eq|contradiction].
      * apply lookup_delete_ne. intros ->. apply Hnin'. left.
    + intros b blk. rewrite Hm. simpl. rewrite map_lookup_filter_Some. simpl.
      rewrite not_elem_of_cons. tauto.
Qed.

Lemma destroy_slots_prefix (l : list nat) k : forall st,
  destroy_slots (map Some l ++ replicate k None) st
  = (replicate (length l + k) None, foldl (fun s a => delete_bank a s) st l).
Proof.
  induction l as [|x l IH]; intros st; simpl.
  - destruct k; reflexivity.
  - rewrite IH. reflexivity.
Qed.


(** X6.  [memory_destroy] deletes every bank the array points to and sets
    every slot to null; a bank that no slot points to is not deleted. *)
Theorem memory_destroy_clears_registry cfg st :
  valid_config cfg -> reachable cfg st ->
  _allocators (memory_destroy st) = replicate (MAX_ALLOCATORS cfg) None /\
  (forall a, Some a ∈ _allocators st -> objects (memory_destroy st) !! a = None) /\
  (forall a, Some a ∉ _allocators st ->
     objects (memory_destroy st) !! a = objects st !! a).
Proof.
  intros Hv Hr. pose proof (reachable_Inv cfg st Hv Hr) as HI.
  destruct (inv_prefix _ _ HI) as [l [k Hs]].
  pose proof (inv_len _ _ HI) as Hlen.
  rewrite Hs, length_app, length_map, length_replicate in Hlen.
  unfold memory_destroy. rewrite Hs, destroy_slots_prefix. simpl.
  destruct (delete_banks_spec l st) as [_ [_ [Ho _]]].
  split; [rewrite Hlen; reflexivity|]. split.
  - intros a Ha. apply elem_of_prefix in Ha. rewrite Ho.
    destruct (decide (a ∈ l)); [reflexivity|contradiction].
  - intros a Ha. rewrite Ho. destruct (decide (a ∈ l)) as [Hin|]; [|reflexivity].
    exfalso. apply Ha. apply elem_of_prefix. exact Hin.
Qed.

Lemma memory_destroy_clears_registry_witness :
  valid_config cfg_on_demand /\ reachable cfg_on_demand st_on_demand_refused /\
  _allocators (memory_destroy st_on_demand_refused) = [None; None] /\
  objects (memory_destroy st_on_demand_refused) !! 0%nat = None /\
  objects (memory_destroy st_on_demand_refused) !! 2%nat
    = Some (mkAllocator DynamicBank 32 4 0 []).
Proof.
  assert (Hr : reachable cfg_on_demand st_on_demand_refused).
  { apply (reach_alloc cfg_on_demand st_on_demand_full 3 20 None);
      [exact reachable_on_demand_full|lia|vm_compute; reflexivity]. }
  split; [exact valid_cfg_on_demand|]. split; [exact Hr|].
  destruct (memory_destroy_clears_registry cfg_on_demand st_on_demand_refused
              valid_cfg_on_demand Hr) as [Hs [Hin Hout]].
  split; [exact Hs|]. split.
  - apply Hin. apply list_elem_of_In. vm_compute. tauto.
  - rewrite Hout; [vm_compute; reflexivity|].
    intros H. apply list_elem_of_In in H. vm_compute in H.
    destruct H as [H|[H|[]]]; discriminate.
Defined.

(** *** In a pool the set of banks never changes *)

Lemma Deallocate_shape a b st st' :
  Deallocate a b st = Ok st' -> shape st' = shape st.
Proof.
  unfold Deallocate. intros H. inv_ok H. apply deref_Ok in Hx.
  injection H as <-. unfold shape. simpl.
  rewrite (static_update _ _ x); [reflexivity|exact Hx|reflexivity].
Qed.



Lemma memory_free_shape p st st' :
  __memory_free p st = Ok st' -> shape st' = shape st.
Proof.
  destruct p as [b|]; simpl; intros H.
  - inv_ok H. eapply Deallocate_shape; eauto.
  - injection H as <-. reflexivity.
Qed.






(** *** Every block belongs to a bank *)










Lemma with_allocators_owned l st : owned st -> owned (with_allocators l st).
Proof. intros Ho. exact Ho. Qed.









(** ** The banks of a pool *)

Lemma sum_available_static st :
  sum_available st
  = foldr (fun (t : BankKind * Z * Z) acc => snd t * snd (fst t) + acc) 0
      (map static (registry st)).
Proof.
  unfold sum_available, sum_over. induction (registry st) as [|A l IH]; simpl;
    [reflexivity|]. rewrite IH. reflexivity.
Qed.

(** X8.  A pool never creates, removes or resizes a bank: at every
    reachable state slot [i] of the Registry holds the bank Bootstrap built
    there, of block size [2^(powStart + i)] (300, 400 and 500 for the
    exponents 9, 10 and 11, as [RestrictSize] has it) and of capacity
    [NUM_BLOCKS]; so [getTotalMemoryAvailable()] returns what it returned
    after Bootstrap. *)
Theorem pool_registry_is_fixed cfg st :
  valid_config cfg -> is_pool cfg = true -> reachable cfg st ->
  map static (registry st)
  = map (fun i : nat =>
           let p := Z.of_nat i + (Z.log2 (sizeof_ptr cfg) + 1) in
           (pool_kind cfg,
            if (9 <=? p) && (p <? 12) then nth (Z.to_nat (p - 9)) [300; 400; 500] 0
            else 2 ^ p,
            NUM_BLOCKS cfg))
        (seq 0 (MAX_ALLOCATORS cfg)) /\
  getTotalMemoryAvailable st = getTotalMemoryAvailable (bootstrap cfg).
Proof.
  intros Hv Hp Hr. pose proof (reachable_Inv cfg st Hv Hr) as HI.
  pose proof (reachable_Inv cfg _ Hv (reach_boot cfg)) as HI0.
  split.
  - rewrite (inv_pool _ _ HI Hp). unfold pool_layout. apply map_ext_in.
    intros i Hi. apply in_seq in Hi.
    destruct (pool_blockSize_pow cfg i Hv Hp) as [-> _]; [lia|].
    unfold pow_size, RestrictSize_apply, powStart.
    destruct Hv as [_ [_ [Hw _]]].
    destruct (powStart_bounds cfg Hw) as [-> _]. simpl. reflexivity.
  - destruct (stats_full st (proj2 (pool_full cfg st HI Hp))) as [-> _].
    destruct (stats_full _ (proj2 (pool_full cfg _ HI0 Hp))) as [-> _].
    rewrite !sum_available_static, (inv_pool _ _ HI Hp), (inv_pool _ _ HI0 Hp).
    reflexivity.
Qed.

Lemma pool_registry_is_fixed_witness :
  valid_config cfg_static /\ is_pool cfg_static = true /\
  reachable cfg_static st_static_5x12 /\
  map static (registry st_static_5x12)
  = map (fun bs => (StaticBank, bs, 4)) [8; 16; 32; 64; 128; 256; 300; 400] /\
  getTotalMemoryAvailable st_static_5x12 = getTotalMemoryAvailable (bootstrap cfg_static).
Proof.
  assert (Hr : reachable cfg_static st_static_5x12).
  { apply (reach_alloc cfg_static st_static_4x12 9 12 (Some 8%nat));
      [exact reachable_static_4x12|lia|vm_compute; reflexivity]. }
  split; [exact valid_cfg_static|]. split; [reflexivity|]. split; [exact Hr|].
  destruct (pool_registry_is_fixed cfg_static st_static_5x12
              valid_cfg_static eq_refl Hr) as [H1 H2].
  split; [rewrite H1; vm_compute; reflexivity|exact H2].
Defined.

(** ** Accounting *)

Lemma memory_get_allocator_registry cfg size st r st1 :
  valid_config cfg -> Inv cfg st ->
  memory_get_allocator cfg size st = Ok (r, st1) ->
  registry st1 = registry st \/
  exists bs, registry st1
             = registry st ++ [mkAllocator DynamicBank bs (NUM_BLOCKS cfg) 0 []].
Proof.
  intros Hv HI H. destruct (is_pool cfg) eqn:Hp.
  - apply memory_get_allocator_pool in H as [-> _]; auto.
  - pose proof H as H'. apply memory_get_allocator_on_demand in H; [|exact Hp].
    destruct H as [[_ [_ ->]]|[Hfind [st0 [Hnew Hins]]]]; [auto|].
    assert (Hok : size_ok cfg (bucket cfg (u32 (size + required_extra_buffer cfg)))).
    { apply bucket_size_ok; [apply Hv|exact Hp|apply u32_range]. }
    destruct (new_bank_orphan_Inv _ _ _ _ HI Hp Hok Hnew) as [HI0 [Hreg [Hmem Hsl]]].
    destruct (inv_prefix _ _ HI) as [l [k Hs]].
    rewrite Hs, insert_in_prefix in Hins. destruct k as [|k'].
    + destruct Hins as [_ ->]. auto.
    + destruct Hins as [_ ->]. right.
      simpl in Hnew. injection Hnew as Hnew.
      eexists. rewrite <- Hreg.
      eapply (insert_slot_Inv cfg st0 l k' (next_obj st)); eauto.
      * rewrite Hsl. exact Hs.
      * rewrite <- Hnew. simpl. apply lookup_insert_eq.
      * intros A0 HA0. simpl. rewrite Hreg in HA0.
        apply (find_allocator_None_registry cfg st _ HI Hfind) in HA0.
        rewrite Hp in HA0. exact HA0.
Qed.

Lemma sum_over_app f l1 l2 : sum_over f (l1 ++ l2) = sum_over f l1 + sum_over f l2.
Proof.
  unfold sum_over. induction l1 as [|A l1 IH]; simpl; [reflexivity|].
  rewrite IH. lia.
Qed.

Lemma memory_get_allocator_sum_used cfg size st r st1 :
  valid_config cfg -> Inv cfg st ->
  memory_get_allocator cfg size st = Ok (r, st1) ->
  sum_used st1 = sum_used st.
Proof.
  intros Hv HI H. unfold sum_used.
  destruct (memory_get_allocator_registry cfg size st r st1 Hv HI H)
    as [->|[bs ->]]; [reflexivity|].
  rewrite sum_over_app. unfold sum_over at 2. simpl. lia.
Qed.

Lemma sizes_prefix (objs : gmap nat Allocator) (l : list nat) :
  (forall a, a ∈ l -> is_Some (objs !! a)) ->
  map blockSize (omap (fun a => objs !! a) l)
  = map (fun a => from_option blockSize 0 (objs !! a)) l.
Proof.
  induction l as [|x l IH]; intros H; [reflexivity|].
  destruct (H x) as [A HA]; [left|].
  rewrite (omap_cons_Some _ x A) by exact HA. simpl. rewrite HA. simpl.
  f_equal. apply IH. intros a Ha. apply H. right. exact Ha.
Qed.

(** No two slots hold the same bank. *)
Lemma inv_NoDup_addrs cfg st l k :
  Inv cfg st -> _allocators st = map Some l ++ replicate k None -> NoDup l.
Proof.
  intros HI Hs. pose proof (inv_distinct _ _ HI) as Hnd.
  unfold registry_sizes in Hnd. rewrite (registry_prefix st l k Hs) in Hnd.
  rewrite sizes_prefix in Hnd.
  - eapply NoDup_fmap_1. exact Hnd.
  - intros a Ha. apply (inv_deref _ _ HI). rewrite Hs. apply elem_of_prefix. exact Ha.
Qed.

Lemma sum_over_update f (objs : gmap nat Allocator) (l : list nat) a A A' :
  NoDup l -> a ∈ l -> objs !! a = Some A ->
  sum_over f (omap (fun x => <[a := A']> objs !! x) l)
  = sum_over f (omap (fun x => objs !! x) l) - f A + f A'.
Proof.
  intros Hnd Hin HA. induction l as [|x l IH]; [inversion Hin|].
  apply NoDup_cons in Hnd as [Hx Hnd].
  destruct (decide (x = a)) as [->|Hne].
  - rewrite (omap_cons_Some _ a A') by apply lookup_insert_eq.
    rewrite (omap_cons_Some _ a A) by exact HA.
    rewrite (omap_lookup_ext objs (<[a := A']> objs) l).
    + unfold sum_over. simpl. lia.
    + intros y Hy. apply lookup_insert_ne. intros ->. contradiction.
  - apply elem_of_cons in Hin as [->|Hin]; [congruence|].
    specialize (IH Hnd Hin).
    destruct (objs !! x) as [B|] eqn:E.
    + rewrite (omap_cons_Some _ x B) by (rewrite lookup_insert_ne by congruence; exact E).
      rewrite (omap_cons_Some _ x B) by exact E.
      unfold sum_over in *. simpl. rewrite IH. lia.
    + rewrite (omap_cons_None _ x) by (rewrite lookup_insert_ne by congruence; exact E).
      rewrite (omap_cons_None _ x) by exact E. exact IH.
Qed.

(** Changing the in-use count of one bank of the Registry. *)
Lemma sum_used_bank_update cfg st a A A' st' :
  Inv cfg st -> Some a ∈ _allocators st -> objects st !! a = Some A ->
  _allocators st' = _allocators st ->
  objects st' = <[a := A']> (objects st) ->
  blockSize A' = blockSize A ->
  sum_used st'
  = sum_used st + (numAllocations A' - numAllocations A) * blockSize A.
Proof.
  intros HI Hin HA Hs Ho Hbs. destruct (inv_prefix _ _ HI) as [l [k Hl]].
  unfold sum_used. rewrite (registry_prefix st l k Hl).
  rewrite (registry_prefix st' l k) by (rewrite Hs; exact Hl). rewrite Ho.
  rewrite (sum_over_update _ (objects st) l a A A').
  - rewrite Hbs. lia.
  - eapply inv_NoDup_addrs; eauto.
  - apply (elem_of_prefix l k). rewrite <- Hl. exact Hin.
  - exact HA.
Qed.

(** How a successful allocation came about: after the lookups of the
    spill-up chain, which leave the memory in use as it was, some bank of
    the Registry handed out the block and the Router wrote the bank into
    it. *)
Lemma memory_alloc_served cfg (fuel : nat) : forall n st p st',
  valid_config cfg -> Inv cfg st ->
  __memory_alloc fuel cfg n st = Ok (Some p, st') ->
  exists st1 a A st2,
    Inv cfg st1 /\ sum_used st1 = sum_used st /\
    Some a ∈ _allocators st1 /\ objects st1 !! a = Some A /\
    Allocate cfg a st1 = Ok (Some p, st2) /\
    set_block_allocator cfg p a st2 = Ok st' /\
    (0 <= n -> n + sizeof_ptr cfg <= 2 ^ 31 -> n + sizeof_ptr cfg <= blockSize A).
Proof.
  induction fuel as [|f IH]; intros n st p st' Hv HI H; [discriminate|].
  cbn [__memory_alloc] in H. inv_ok H. destruct x as [[a|] st1]; [|discriminate].
  assert (HI1 : Inv cfg st1) by (eapply memory_get_allocator_Inv; eauto).
  pose proof (memory_get_allocator_sum_used cfg n st _ st1 Hv HI Hx) as Hsum.
  destruct (memory_get_allocator_Some cfg n st a st1 HI Hx) as [Hin [A [HA Hsz]]].
  assert (Hw : 0 < sizeof_ptr cfg < 256) by apply Hv.
  destruct (powStart_bounds cfg Hw) as [Hreb _]. rewrite Hreb in Hsz.
  assert (Hfit : 0 <= n -> n + sizeof_ptr cfg <= 2 ^ 31 ->
                 n + sizeof_ptr cfg <= blockSize A).
  { intros Hn Hle. rewrite u32_small in Hsz by lia.
    destruct (is_pool cfg); [exact Hsz|].
    rewrite bucket_spec in Hsz by (try apply Hv; lia). rewrite Hsz.
    apply spec_bucket_ge. lia. }
  inv_ok H. destruct x as [[b|] st2].
  - inv_ok H. injection H as <- <-.
    exists st1, a, A, st2. auto 10.
  - apply Allocate_None in Hx0 as [-> _]. inv_ok H.
    apply deref_Ok in Hx0. rewrite HA in Hx0. injection Hx0 as <-.
    unfold GetBlockSize in H.
    destruct (Z.ltb_spec (blockSize A) x0) as [Hlt|]; [|discriminate].
    pose proof (below_last_small cfg st1 a A x0 HI1 HA Hx1 Hlt) as Hb.
    rewrite u32_small in H by lia.
    destruct (IH _ _ _ _ Hv HI1 H)
      as [st1' [a' [A' [st2' [HI' [Hsum' [Hin' [HA' [Hal [Hset Hfit']]]]]]]]]].
    exists st1', a', A', st2'.
    split; [exact HI'|]. split; [congruence|]. split; [exact Hin'|].
    split; [exact HA'|]. split; [exact Hal|]. split; [exact Hset|].
    intros Hn Hle. specialize (Hfit Hn Hle).
    assert (blockSize A + 1 + sizeof_ptr cfg <= blockSize A'); [|lia].
    apply Hfit'; lia.
Qed.

Lemma memory_alloc_result cfg fuel n st p st' :
  valid_config cfg -> Inv cfg st ->
  __memory_alloc fuel cfg n st = Ok (Some p, st') ->
  exists a A blk,
    memory st' !! p = Some blk /\ b_tag blk = Some a /\
    objects st' !! a = Some A /\ Some a ∈ _allocators st' /\ Inv cfg st' /\
    sum_used st' = sum_used st + blockSize A /\
    (0 <= n -> n + sizeof_ptr cfg <= 2 ^ 31 -> n + sizeof_ptr cfg <= blockSize A).
Proof.
  intros Hv HI H.
  pose proof (memory_alloc_Inv cfg fuel n st _ st' Hv HI H) as HI'.
  destruct (memory_alloc_served cfg fuel n st p st' Hv HI H)
    as [st1 [a [A [st2 [HI1 [Hsum [Hin [HA [Hal [Hset Hfit]]]]]]]]]].
  destruct (Allocate_Some cfg a st1 p st2 Hal (inv_free _ _ HI1))
    as [A0 [HA0 [_ [Hobj _]]]].
  rewrite HA in HA0. injection HA0 as <-.
  pose proof (Allocate_shape cfg a st1 _ st2 Hal) as Hsh.
  assert (Hs2 : _allocators st2 = _allocators st1) by (injection Hsh; auto).
  pose proof (sum_used_bank_update cfg st1 a A _ st2 HI1 Hin HA Hs2 Hobj eq_refl)
    as Hsum2. simpl in Hsum2.
  unfold set_block_allocator in Hset. inv_ok Hset.
  destruct (_ <=? _); [|discriminate]. injection Hset as <-.
  eexists a, _, _. simpl.
  split; [apply lookup_insert_eq|]. split; [reflexivity|].
  split; [rewrite Hobj; apply lookup_insert_eq|].
  split; [rewrite Hs2; exact Hin|]. split; [exact HI'|]. split.
  - change (sum_used st2 = sum_used st + blockSize A). lia.
  - exact Hfit.
Qed.

(** X9.  A successful [alloc(n)] returns a block whose first word names a
    bank of the Registry, and the memory in use (the sum of in-use count
    times block size) grows by exactly the block size of that bank, also
    when the block came from a larger bank after spill-up. *)
Theorem alloc_uses_one_block cfg st fuel n p st' :
  valid_config cfg -> reachable cfg st ->
  __memory_alloc fuel cfg n st = Ok (Some p, st') ->
  exists bs, block_bank_size st' p = Some bs /\
    bs ∈ registry_sizes st' /\
    sum_used st' = sum_used st + bs.
Proof.
  intros Hv Hr H. pose proof (reachable_Inv cfg st Hv Hr) as HI.
  destruct (memory_alloc_result cfg fuel n st p st' Hv HI H)
    as [a [A [blk [Hblk [Htag [HA [Hin [_ [Hsum _]]]]]]]]].
  exists (blockSize A). split.
  - unfold block_bank_size. rewrite Hblk, Htag, HA. reflexivity.
  - split; [|exact Hsum]. apply registry_size_elem. eapply registry_elem; eauto.
Qed.

Lemma alloc_uses_one_block_witness :
  valid_config cfg_static /\ reachable cfg_static st_static_4x12 /\
  __memory_alloc 9 cfg_static 12 st_static_4x12 = Ok (Some 8%nat, st_static_5x12) /\
  exists bs, block_bank_size st_static_5x12 8 = Some bs /\
    bs ∈ registry_sizes st_static_5x12 /\
    sum_used st_static_5x12 = sum_used st_static_4x12 + bs.
Proof.
  assert (H : __memory_alloc 9 cfg_static 12 st_static_4x12
              = Ok (Some 8%nat, st_static_5x12)) by (vm_compute; reflexivity).
  split; [exact valid_cfg_static|]. split; [exact reachable_static_4x12|].
  split; [exact H|].
  exact (alloc_uses_one_block cfg_static st_static_4x12 9%nat 12 8%nat st_static_5x12
           valid_cfg_static reachable_static_4x12 H).
Defined.





(** ** Stats queries by block size *)

Lemma size_in_prefix st (l : list nat) k s :
  (forall a, a ∈ l -> is_Some (objects st !! a)) ->
  size_in st (map Some l ++ replicate k None) s
  = if decide (s ∈ map blockSize (omap (fun a => objects st !! a) l)) then Ok true
    else match k with O => Ok false | S _ => Fault end.
Proof.
  induction l as [|x l IH]; intros H.
  - cbn [map app omap]. destruct (decide (s ∈ map blockSize [])) as [Hin|_].
    + inversion Hin.
    + destruct k; reflexivity.
  - destruct (H x) as [A HA]; [left|].
    rewrite (omap_cons_Some _ x A l HA).
    cbn [map app size_in of_option obind]. unfold deref. rewrite HA.
    cbn [of_option obind]. unfold GetBlockSize.
    rewrite IH by (intros a Ha; apply H; right; exact Ha).
    destruct (Z.eqb_spec (blockSize A) s) as [Heq|Hne].
    + destruct (decide (s ∈ blockSize A :: _)) as [|Hn]; [reflexivity|].
      exfalso. apply Hn. apply elem_of_cons. left. symmetry. exact Heq.
    + destruct (decide (s ∈ map blockSize (omap (fun a => objects st !! a) l)))
        as [Hin|Hnin], (decide (s ∈ blockSize A :: _)) as [Hin'|Hnin'];
        try reflexivity.
      * exfalso. apply Hnin'. right. exact Hin.
      * exfalso. apply elem_of_cons in Hin' as [?|?]; [congruence|contradiction].
Qed.

(** X12.  [isSizeAvailable(s)] returns true when the Registry holds a bank
    of block size [s]; when it holds none the call returns false only if
    every slot of the array is populated, and otherwise dereferences the
    first null slot. *)
Theorem isSizeAvailable_registry cfg st s :
  valid_config cfg -> reachable cfg st ->
  (s ∈ registry_sizes st -> isSizeAvailable s st = Ok true) /\
  (s ∉ registry_sizes st -> length (registry st) = MAX_ALLOCATORS cfg ->
     isSizeAvailable s st = Ok false) /\
  (s ∉ registry_sizes st -> (length (registry st) < MAX_ALLOCATORS cfg)%nat ->
     isSizeAvailable s st = Fault).
Proof.
  intros Hv Hr. pose proof (reachable_Inv cfg st Hv Hr) as HI.
  destruct (inv_prefix _ _ HI) as [l [k Hs]].
  pose proof (inv_len _ _ HI) as Hlen.
  rewrite Hs, length_app, length_map, length_replicate in Hlen.
  pose proof (registry_length_prefix cfg st l k HI Hs) as Hreg.
  assert (Hall : forall a, a ∈ l -> is_Some (objects st !! a)).
  { intros a Ha. apply (inv_deref _ _ HI). rewrite Hs. apply elem_of_prefix. exact Ha. }
  unfold isSizeAvailable, registry_sizes. rewrite Hs at 1 2 3.
  rewrite (size_in_prefix st l k s Hall), (registry_prefix st l k Hs).
  destruct (decide (s ∈ map blockSize (omap (fun a => objects st !! a) l)))
    as [Hin|Hnin].
  - split; [reflexivity|]. split; intros Hn; contradiction.
  - split; [intros Hin; contradiction|].
    rewrite (registry_prefix st l k Hs) in Hreg.
    split; intros _ Hl; destruct k; try reflexivity; lia.
Qed.

Lemma isSizeAvailable_registry_witness :
  valid_config cfg_on_demand /\
  reachable cfg_on_demand (bootstrap cfg_on_demand) /\
  (16 ∉ registry_sizes (bootstrap cfg_on_demand)) /\
  (length (registry (bootstrap cfg_on_demand)) < MAX_ALLOCATORS cfg_on_demand)%nat /\
  isSizeAvailable 16 (bootstrap cfg_on_demand) = Fault.
Proof.
  assert (Hn : 16 ∉ registry_sizes (bootstrap cfg_on_demand)).
  { intros H. apply list_elem_of_In in H. vm_compute in H. exact H. }
  assert (Hl : (length (registry (bootstrap cfg_on_demand))
                < MAX_ALLOCATORS cfg_on_demand)%nat) by (vm_compute; lia).
  split; [exact valid_cfg_on_demand|]. split; [apply reach_boot|].
  split; [exact Hn|]. split; [exact Hl|].
  exact (proj2 (proj2 (isSizeAvailable_registry cfg_on_demand (bootstrap cfg_on_demand)
           16 valid_cfg_on_demand (reach_boot cfg_on_demand))) Hn Hl).
Defined.

(** *** The counters of a bank *)

Lemma banks_ok_insert st st' a A' :
  banks_ok st -> bank_ok A' -> objects st' = <[a := A']> (objects st) ->
  banks_ok st'.
Proof.
  intros Hk HA Ho x X. rewrite Ho, lookup_insert. case_decide.
  - intros [= <-]. exact HA.
  - apply Hk.
Qed.

Lemma banks_ok_same st st' :
  banks_ok st -> objects st' = objects st -> banks_ok st'.
Proof. intros Hk Ho x X. rewrite Ho. apply Hk. Qed.

Lemma Allocate_banks_ok cfg a st r st' :
  banks_ok st -> Allocate cfg a st = Ok (r, st') -> banks_ok st'.
Proof.
  intros Hk H. unfold Allocate in H. inv_ok H. apply deref_Ok in Hx.
  pose proof (Hk a x Hx) as HA. unfold bank_ok in HA.
  destruct (freeList x) as [|b fl] eqn:Efl.
  - destruct (a_kind x) eqn:Ek; [injection H as _ <-; exact Hk|].
    destruct (Z.ltb_spec (numAllocations x) (totalBlocks x)) as [Hlt|_];
      [|injection H as _ <-; exact Hk].
    injection H as _ <-.
    eapply (banks_ok_insert st); [exact Hk| |reflexivity].
    unfold bank_ok. simpl in *. lia.
  - injection H as _ <-.
    eapply (banks_ok_insert st); [exact Hk| |reflexivity].
    unfold bank_ok. simpl in *. destruct (a_kind x); lia.
Qed.

Lemma Deallocate_banks_ok a b st st' :
  banks_ok st -> Deallocate a b st = Ok st' -> banks_ok st'.
Proof.
  intros Hk H. unfold Deallocate in H. inv_ok H.
  apply deref_Ok in Hx. injection H as <-.
  pose proof (Hk a x Hx) as HA. unfold bank_ok in HA.
  eapply (banks_ok_insert st); [exact Hk| |reflexivity].
  unfold bank_ok. simpl. destruct (a_kind x); lia.
Qed.

Lemma set_block_allocator_banks_ok cfg b a st st' :
  banks_ok st -> set_block_allocator cfg b a st = Ok st' -> banks_ok st'.
Proof.
  intros Hk H. unfold set_block_allocator in H. inv_ok H.
  destruct (_ <=? _); [|discriminate]. injection H as <-.
  apply (banks_ok_same st); [exact Hk|reflexivity].
Qed.

Lemma memcpy_banks_ok dst src n st st' :
  banks_ok st -> memcpy dst src n st = Ok st' -> banks_ok st'.
Proof.
  intros Hk H. unfold memcpy in H. inv_ok H.
  destruct (_ && _); [|discriminate]. injection H as <-.
  apply (banks_ok_same st); [exact Hk|reflexivity].
Qed.

Lemma memory_free_banks_ok p st st' :
  banks_ok st -> __memory_free p st = Ok st' -> banks_ok st'.
Proof.
  intros Hk H. destruct p as [b|]; simpl in H.
  - inv_ok H. eapply Deallocate_banks_ok; eauto.
  - injection H as <-. exact Hk.
Qed.

Lemma new_bank_banks_ok cfg k bs n st :
  0 <= n -> banks_ok st -> banks_ok (snd (new_bank cfg k bs n st)).
Proof.
  intros Hn Hk. unfold new_bank. destruct k; simpl.
  - eapply (banks_ok_insert st); [exact Hk| |reflexivity].
    unfold bank_ok. simpl. rewrite length_seq. lia.
  - eapply (banks_ok_insert st); [exact Hk| |reflexivity].
    unfold bank_ok. simpl. lia.
Qed.

Lemma memory_get_allocator_banks_ok cfg size st r st1 :
  0 <= NUM_BLOCKS cfg -> banks_ok st ->
  memory_get_allocator cfg size st = Ok (r, st1) -> banks_ok st1.
Proof.
  intros Hn Hk H. unfold memory_get_allocator in H. inv_ok H.
  destruct x as [a|]; [injection H as _ <-; exact Hk|].
  destruct (is_pool cfg); [injection H as _ <-; exact Hk|].
  pose proof (new_bank_banks_ok cfg DynamicBank
                (bucket cfg (u32 (size + required_extra_buffer cfg)))
                (NUM_BLOCKS cfg) st Hn Hk) as Hb.
  destruct (new_bank _ _ _ _ _) as [a st0]. simpl in Hb.
  unfold insert_allocator in H.
  destruct (insert_in (_allocators st0) a); injection H as _ <-; exact Hb.
Qed.

Lemma memory_alloc_banks_ok cfg (fuel : nat) : forall size st r st',
  0 <= NUM_BLOCKS cfg -> banks_ok st ->
  __memory_alloc fuel cfg size st = Ok (r, st') -> banks_ok st'.
Proof.
  induction fuel as [|f IH]; intros size st r st' Hn Hk H; [discriminate|].
  cbn [__memory_alloc] in H. inv_ok H. destruct x as [[a|] st1].
  - assert (Hk1 : banks_ok st1) by (eapply memory_get_allocator_banks_ok; eauto).
    inv_ok H. destruct x as [[b|] st2].
    + assert (Hk2 : banks_ok st2) by (eapply Allocate_banks_ok; eauto).
      inv_ok H. injection H as _ <-. eapply set_block_allocator_banks_ok; eauto.
    + assert (Hk2 : banks_ok st2) by (eapply Allocate_banks_ok; eauto).
      inv_ok H. destruct (_ <? _); [eapply IH; eauto|].
      injection H as _ <-. exact Hk2.
  - injection H as _ <-. eapply memory_get_allocator_banks_ok; eauto.
Qed.

Lemma memory_realloc_banks_ok cfg fuel p size st r st' :
  0 <= NUM_BLOCKS cfg -> banks_ok st ->
  __memory_realloc fuel cfg p size st = Ok (r, st') -> banks_ok st'.
Proof.
  intros Hn Hk H. unfold __memory_realloc in H. destruct p as [old|];
    [|eapply memory_alloc_banks_ok; eauto].
  destruct (size =? 0).
  - inv_ok H. injection H as _ <-. eapply memory_free_banks_ok; eauto.
  - inv_ok H. destruct x as [[new|] st1].
    + assert (Hk1 : banks_ok st1) by (eapply memory_alloc_banks_ok; eauto).
      inv_ok H. injection H as _ <-.
      eapply memory_free_banks_ok; [|eauto]. eapply memcpy_banks_ok; eauto.
    + injection H as _ <-. eapply memory_alloc_banks_ok; eauto.
Qed.

Lemma insert_apply_banks_ok cfg (n : nat) : forall from st,
  0 <= NUM_BLOCKS cfg -> banks_ok st -> banks_ok (insert_apply cfg n from st).
Proof.
  induction n as [|n IH]; intros from st Hn Hk; cbn [insert_apply];
    pose proof (new_bank_banks_ok cfg (pool_kind cfg) (pool_blockSize cfg from)
                  (NUM_BLOCKS cfg) st Hn Hk) as Hb;
    destruct (new_bank _ _ _ _ _) as [a st1]; simpl in Hb.
  - exact Hb.
  - apply IH; [exact Hn|exact Hb].
Qed.

Lemma bootstrap_banks_ok cfg : 0 <= NUM_BLOCKS cfg -> banks_ok (bootstrap cfg).
Proof.
  intros Hn. unfold bootstrap, MemoryInitDestroy_ctor. simpl. unfold memory_init.
  assert (H0 : banks_ok (with_refCount (0 + 1) (initial_state cfg))).
  { intros a A Ha. simpl in Ha. rewrite lookup_empty in Ha. discriminate. }
  destruct (is_pool cfg); [apply insert_apply_banks_ok; assumption|exact H0].
Qed.

Lemma reachable_banks_ok cfg st :
  valid_config cfg -> reachable cfg st -> banks_ok st.
Proof.
  intros Hv Hr. assert (Hn : 0 <= NUM_BLOCKS cfg) by (destruct Hv as [_ [? _]]; lia).
  induction Hr as
    [|st fuel n r st' _ IH _ H|st p st' _ IH H|st fuel p n r st' _ IH _ H].
  - apply bootstrap_banks_ok. exact Hn.
  - eapply memory_alloc_banks_ok; eauto.
  - eapply memory_free_banks_ok; eauto.
  - eapply memory_realloc_banks_ok; eauto.
Qed.

Lemma registry_bank st A :
  A ∈ registry st -> exists a, Some a ∈ _allocators st /\ objects st !! a = Some A.
Proof.
  unfold registry. intros H. apply list_elem_of_omap in H as [[a|] [Hin HA]];
    [|discriminate]. exists a. split; [exact Hin|exact HA].
Qed.

Lemma bank_ok_free A :
  bank_ok A ->
  0 <= totalBlocks A - numAllocations A /\
  has_free_block A = (0 <? totalBlocks A - numAllocations A).
Proof.
  unfold bank_ok, has_free_block. intros H.
  destruct (freeList A) as [|b fl], (a_kind A); simpl in *.
  - split; [lia|]. symmetry. apply Z.ltb_ge. lia.
  - split; [lia|]. destruct (Z.ltb_spec (numAllocations A) (totalBlocks A));
      symmetry; [apply Z.ltb_lt|apply Z.ltb_ge]; lia.
  - split; [lia|]. symmetry. apply Z.ltb_lt. lia.
  - split; [lia|]. symmetry. apply Z.ltb_lt. lia.
Qed.

Lemma sum_over_le (f g : Allocator -> Z) (l : list Allocator) :
  (forall A, A ∈ l -> f A <= g A) -> sum_over f l <= sum_over g l.
Proof.
  induction l as [|A l IH]; intros H; simpl; [lia|].
  assert (f A <= g A) by (apply H; left).
  assert (sum_over f l <= sum_over g l) by (apply IH; intros B HB; apply H; right; exact HB).
  unfold sum_over in *. lia.
Qed.

(** X13.  A bank never has more blocks in use than its capacity, so at
    every reachable state the memory in use is at most the memory
    available. *)
Theorem used_at_most_available cfg st :
  valid_config cfg -> reachable cfg st ->
  (forall A, A ∈ registry st -> numAllocations A <= totalBlocks A) /\
  sum_used st <= sum_available st.
Proof.
  intros Hv Hr. pose proof (reachable_Inv cfg st Hv Hr) as HI.
  pose proof (reachable_banks_ok cfg st Hv Hr) as Hk.
  assert (Hle : forall A, A ∈ registry st -> numAllocations A <= totalBlocks A).
  { intros A HA. destruct (registry_bank st A HA) as [a [_ Ha]].
    destruct (bank_ok_free A (Hk a A Ha)) as [H0 _]. lia. }
  split; [exact Hle|]. unfold sum_used, sum_available. apply sum_over_le.
  intros A HA. destruct (registry_bank st A HA) as [a [_ Ha]].
  destruct (inv_sizes _ _ HI a A Ha) as [Hbs _]. specialize (Hle A HA). nia.
Qed.

Lemma used_at_most_available_witness :
  valid_config cfg_static /\ reachable cfg_static st_static_4x12 /\
  sum_used st_static_4x12 <= sum_available st_static_4x12.
Proof.
  split; [exact valid_cfg_static|]. split; [exact reachable_static_4x12|].
  exact (proj2 (used_at_most_available cfg_static st_static_4x12
                  valid_cfg_static reachable_static_4x12)).
Defined.

Lemma size_mem_in_elem st (l : list nat) k A :
  (forall a, a ∈ l -> is_Some (objects st !! a)) ->
  NoDup (map blockSize (omap (fun a => objects st !! a) l)) ->
  A ∈ omap (fun a => objects st !! a) l ->
  size_mem_in st (map Some l ++ replicate k None) (blockSize A)
  = Ok (negb (u32 (u32 (totalBlocks A * blockSize A)
                   - u32 (numAllocations A * blockSize A)) =? 0)).
Proof.
  induction l as [|x l IH]; intros H Hnd HA; [inversion HA|].
  destruct (H x) as [B HB]; [left|].
  rewrite (omap_cons_Some _ x B l HB) in Hnd, HA.
  cbn [map] in Hnd. apply NoDup_cons in Hnd as [Hnin Hnd].
  cbn [map app size_mem_in of_option obind]. unfold deref. rewrite HB.
  cbn [of_option obind]. unfold GetBlockSize, GetTotalBlocks, GetNumAllocations.
  apply elem_of_cons in HA as [->|HA].
  - rewrite Z.eqb_refl. reflexivity.
  - destruct (Z.eqb_spec (blockSize B) (blockSize A)) as [Heq|Hne].
    + exfalso. apply Hnin. rewrite Heq. apply list_elem_of_fmap. eauto.
    + apply IH; [intros a Ha; apply H; right; exact Ha|exact Hnd|exact HA].
Qed.

(** X14.  [isSizeMemAvailable(s)] tells whether the bank of block size [s]
    can still hand out a block, when [s] is not 0 and the bank's free
    memory (capacity minus blocks in use, times [s]) is below [2^32]. *)
Theorem isSizeMemAvailable_free_block cfg st A :
  valid_config cfg -> reachable cfg st -> A ∈ registry st ->
  0 < blockSize A ->
  (totalBlocks A - numAllocations A) * blockSize A < 2 ^ 32 ->
  isSizeMemAvailable (blockSize A) st = Ok (has_free_block A).
Proof.
  intros Hv Hr HA Hbs Hlt. pose proof (reachable_Inv cfg st Hv Hr) as HI.
  pose proof (reachable_banks_ok cfg st Hv Hr) as Hk.
  destruct (registry_bank st A HA) as [a [_ Ha]].
  destruct (bank_ok_free A (Hk a A Ha)) as [H0 Hfree].
  destruct (inv_prefix _ _ HI) as [l [k Hs]].
  assert (Hall : forall x, x ∈ l -> is_Some (objects st !! x)).
  { intros x Hx. apply (inv_deref _ _ HI). rewrite Hs. apply elem_of_prefix. exact Hx. }
  pose proof (inv_distinct _ _ HI) as Hnd. unfold registry_sizes in Hnd.
  rewrite (registry_prefix st l k Hs) in Hnd, HA.
  unfold isSizeMemAvailable. rewrite Hs.
  rewrite (size_mem_in_elem st l k A Hall Hnd HA), Hfree. f_equal.
  assert (Hu : u32 (u32 (totalBlocks A * blockSize A)
                    - u32 (numAllocations A * blockSize A))
               = (totalBlocks A - numAllocations A) * blockSize A).
  { unfold u32, wrap. rewrite <- Zminus_mod.
    replace (totalBlocks A * blockSize A - numAllocations A * blockSize A)
      with ((totalBlocks A - numAllocations A) * blockSize A) by ring.
    apply Z.mod_small. nia. }
  rewrite Hu.
  destruct (Z.ltb_spec 0 (totalBlocks A - numAllocations A)) as [Hp|Hz].
  - destruct (Z.eqb_spec ((totalBlocks A - numAllocations A) * blockSize A) 0);
      [nia|reflexivity].
  - replace (totalBlocks A - numAllocations A) with 0 by lia. reflexivity.
Qed.

Lemma isSizeMemAvailable_free_block_witness :
  valid_config cfg_static /\ reachable cfg_static st_static_4x12 /\
  mkAllocator StaticBank 16 4 4 [] ∈ registry st_static_4x12 /\
  isSizeMemAvailable 16 st_static_4x12 = Ok false.
Proof.
  assert (HA : mkAllocator StaticBank 16 4 4 [] ∈ registry st_static_4x12).
  { apply list_elem_of_In. vm_compute. right. left. reflexivity. }
  split; [exact valid_cfg_static|]. split; [exact reachable_static_4x12|].
  split; [exact HA|].
  exact (isSizeMemAvailable_free_block cfg_static st_static_4x12
           (mkAllocator StaticBank 16 4 4 []) valid_cfg_static
           reachable_static_4x12 HA ltac:(simpl; lia) ltac:(simpl; lia)).
Defined.

(** ** Requests near the top of [size32_type] *)

Lemma pool_alloc_first cfg st fuel n a0 A0 :
  is_pool cfg = true -> Inv cfg st ->
  _allocators st !! 0%nat = Some (Some a0) ->
  objects st !! a0 = Some A0 ->
  has_free_block A0 = true ->
  u32 (n + required_extra_buffer cfg) <= blockSize A0 ->
  exists p st',
    __memory_alloc (S fuel) cfg n st = Ok (Some p, st') /\
    block_bank_size st' p = Some (blockSize A0).
Proof.
  intros Hp HI Hslot HA0 Hfree Hle.
  assert (Hget : memory_get_allocator cfg n st = Ok (Some a0, st)).
  { unfold memory_get_allocator, find_allocator. rewrite Hp.
    destruct (_allocators st) as [|slot r]; [discriminate|].
    injection Hslot as ->. cbn [find_in]. unfold deref. rewrite HA0.
    cbn [of_option obind]. rewrite Hp. unfold GetBlockSize.
    replace (u32 (n + required_extra_buffer cfg) <=? blockSize A0) with true
      by (symmetry; apply Z.leb_le; exact Hle).
    reflexivity. }
  destruct (Allocate_free_block cfg a0 st A0 HA0 Hfree) as [b [st2 Hal]].
  destruct (Allocate_Some cfg a0 st b st2 Hal (inv_free _ _ HI))
    as [A [HA [_ [Hobj [[blk [Hblk _]] _]]]]].
  rewrite HA0 in HA. injection HA as <-.
  pose proof (Allocate_Inv cfg a0 st _ st2 HI Hal) as HI2.
  pose proof (inv_blocks _ _ HI2 Hp b blk Hblk) as Hbs.
  exists b. eexists. split.
  { cbn [__memory_alloc]. rewrite Hget. cbn [obind]. rewrite Hal. cbn [obind].
    unfold set_block_allocator. rewrite Hblk. cbn [of_option obind].
    replace (required_extra_buffer cfg <=? b_size blk) with true
      by (symmetry; apply Z.leb_le; exact Hbs).
    reflexivity. }
  unfold block_bank_size. simpl. rewrite lookup_insert_eq. simpl.
  rewrite Hobj, lookup_insert_eq. reflexivity.
Qed.

(** X15.  The sum [size + sizeof(Allocator * )] is computed in
    [size32_type]: in a pool a request of [n] bytes with
    [2^32 - sizeof(Allocator * ) <= n < 2^32] wraps to a block size below
    the prefix and is served from the smallest bank, whose blocks are far
    smaller than [n]. *)
Theorem alloc_size_wraps cfg st fuel n a0 A0 :
  valid_config cfg -> is_pool cfg = true -> reachable cfg st ->
  _allocators st !! 0%nat = Some (Some a0) ->
  objects st !! a0 = Some A0 ->
  has_free_block A0 = true ->
  2 ^ 32 - sizeof_ptr cfg <= n < 2 ^ 32 ->
  exists p st',
    __memory_alloc (S fuel) cfg n st = Ok (Some p, st') /\
    block_bank_size st' p = Some (blockSize A0) /\
    blockSize A0 < n.
Proof.
  intros Hv Hp Hr Hslot HA0 Hfree Hn.
  pose proof (reachable_Inv cfg st Hv Hr) as HI.
  destruct (inv_sizes _ _ HI a0 A0 HA0) as [_ [_ Hsz]]. specialize (Hsz Hp).
  assert (Hw : 0 < sizeof_ptr cfg < 256) by (destruct Hv as [_ [_ [Hw _]]]; exact Hw).
  destruct (powStart_bounds cfg Hw) as [Hreb _].
  assert (Hu : u32 (n + required_extra_buffer cfg) = n + sizeof_ptr cfg - 2 ^ 32).
  { rewrite Hreb. unfold u32, wrap. symmetry.
    apply (Z.mod_unique _ _ 1); lia. }
  destruct (pool_alloc_first cfg st fuel n a0 A0 Hp HI Hslot HA0 Hfree)
    as [p [st' [Hal Hb]]]; [rewrite Hu, Hreb in *; lia|].
  exists p, st'. split; [exact Hal|]. split; [exact Hb|]. lia.
Qed.

Lemma alloc_size_wraps_witness :
  valid_config cfg_static /\ is_pool cfg_static = true /\
  reachable cfg_static st_static_4x12 /\
  2 ^ 32 - sizeof_ptr cfg_static <= 4294967295 < 2 ^ 32 /\
  exists p st',
    __memory_alloc 9 cfg_static 4294967295 st_static_4x12 = Ok (Some p, st') /\
    block_bank_size st' p = Some 8 /\ 8 < 4294967295.
Proof.
  split; [exact valid_cfg_static|]. split; [reflexivity|].
  split; [exact reachable_static_4x12|]. split; [simpl; lia|].
  exact (alloc_size_wraps cfg_static st_static_4x12 8%nat 4294967295 0%nat
           (mkAllocator StaticBank 8 4 0 [0; 1; 2; 3]%nat)
           valid_cfg_static eq_refl reachable_static_4x12
           ltac:(vm_compute; reflexivity) ltac:(vm_compute; reflexivity)
           eq_refl ltac:(simpl; lia)).
Defined.

Lemma blocks_in_absent st (l : list nat) s : forall acc,
  (forall a, a ∈ l -> is_Some (objects st !! a)) ->
  s ∉ map blockSize (omap (fun a => objects st !! a) l) ->
  blocks_in st (map Some l) s acc = Ok acc.
Proof.
  induction l as [|x l IH]; intros acc H Hn; [reflexivity|].
  destruct (H x) as [B HB]; [left|].
  rewrite (omap_cons_Some _ x B l HB) in Hn. cbn [map] in Hn.
  apply not_elem_of_cons in Hn as [Hne Hn].
  cbn [map blocks_in of_option obind]. unfold deref. rewrite HB.
  cbn [of_option obind]. unfold GetBlockSize.
  destruct (Z.eqb_spec (blockSize B) s) as [Heq|_]; [congruence|].
  apply IH; [intros a Ha; apply H; right; exact Ha|exact Hn].
Qed.

Lemma blocks_in_elem st (l : list nat) A : forall acc,
  (forall a, a ∈ l -> is_Some (objects st !! a)) ->
  NoDup (map blockSize (omap (fun a => objects st !! a) l)) ->
  A ∈ omap (fun a => objects st !! a) l ->
  blockSize A <> 0 ->
  blocks_in st (map Some l) (blockSize A) acc
  = Ok (u16 (acc + u32 (u32 (totalBlocks A * blockSize A)
                        - u32 (numAllocations A * blockSize A)) / blockSize A)).
Proof.
  induction l as [|x l IH]; intros acc H Hnd HA Hbs; [inversion HA|].
  destruct (H x) as [B HB]; [left|].
  rewrite (omap_cons_Some _ x B l HB) in Hnd, HA.
  cbn [map] in Hnd. apply NoDup_cons in Hnd as [Hnin Hnd].
  cbn [map blocks_in of_option obind]. unfold deref. rewrite HB.
  cbn [of_option obind]. unfold GetBlockSize, GetTotalBlocks, GetNumAllocations.
  assert (Hall : forall a, a ∈ l -> is_Some (objects st !! a))
    by (intros a Ha; apply H; right; exact Ha).
  apply elem_of_cons in HA as [->|HA].
  - rewrite Z.eqb_refl.
    destruct (Z.eqb_spec (blockSize B) 0) as [|_]; [contradiction|].
    apply blocks_in_absent; assumption.
  - destruct (Z.eqb_spec (blockSize B) (blockSize A)) as [Heq|Hne].
    + exfalso. apply Hnin. rewrite Heq. apply list_elem_of_fmap. eauto.
    + apply IH; assumption.
Qed.

(** X16.  In a pool [getNumBlocksAvailable(s)] returns, for the block size
    [s] of a bank, the bank's capacity minus its blocks in use (when that
    free memory is below [2^32] bytes and the count below [2^16]), and 0
    for a size no bank has. *)
Theorem getNumBlocksAvailable_pool cfg st :
  valid_config cfg -> is_pool cfg = true -> reachable cfg st ->
  (forall A, A ∈ registry st ->
     (totalBlocks A - numAllocations A) * blockSize A < 2 ^ 32 ->
     totalBlocks A - numAllocations A < 2 ^ 16 ->
     getNumBlocksAvailable (blockSize A) st
     = Ok (totalBlocks A - numAllocations A)) /\
  (forall s, s ∉ registry_sizes st -> getNumBlocksAvailable s st = Ok 0).
Proof.
  intros Hv Hp Hr. pose proof (reachable_Inv cfg st Hv Hr) as HI.
  pose proof (reachable_banks_ok cfg st Hv Hr) as Hk.
  destruct (inv_prefix _ _ HI) as [l [k Hs]].
  pose proof (inv_len _ _ HI) as Hlen.
  rewrite Hs, length_app, length_map, length_replicate in Hlen.
  pose proof (registry_length_prefix cfg st l k HI Hs) as Hreg.
  destruct (pool_full cfg st HI Hp) as [Hfull _].
  assert (Hk0 : k = 0%nat) by lia. subst k.
  cbn [replicate] in Hs. rewrite app_nil_r in Hs.
  assert (Hall : forall x, x ∈ l -> is_Some (objects st !! x)).
  { intros x Hx. apply (inv_deref _ _ HI). rewrite Hs.
    apply list_elem_of_fmap. eauto. }
  assert (Hregl : registry st = omap (fun a => objects st !! a) l).
  { apply (registry_prefix st l 0). cbn [replicate]. rewrite app_nil_r. exact Hs. }
  pose proof (inv_distinct _ _ HI) as Hnd. unfold registry_sizes in *.
  rewrite Hregl in *. unfold getNumBlocksAvailable. rewrite Hs. split.
  - intros A HA Hlt H16. destruct (registry_bank st A) as [a [_ Ha]];
      [rewrite Hregl; exact HA|].
    destruct (bank_ok_free A (Hk a A Ha)) as [H0 _].
    destruct (inv_sizes _ _ HI a A Ha) as [_ [_ Hsz]]. specialize (Hsz Hp).
    assert (Hreb : 0 <= required_extra_buffer cfg).
    { unfold required_extra_buffer, u16, wrap. apply Z.mod_pos_bound. lia. }
    rewrite (blocks_in_elem st l A 0 Hall Hnd HA) by lia. f_equal.
    assert (Hu : u32 (u32 (totalBlocks A * blockSize A)
                      - u32 (numAllocations A * blockSize A))
                 = (totalBlocks A - numAllocations A) * blockSize A).
    { unfold u32, wrap. rewrite <- Zminus_mod.
      replace (totalBlocks A * blockSize A - numAllocations A * blockSize A)
        with ((totalBlocks A - numAllocations A) * blockSize A) by ring.
      apply Z.mod_small. nia. }
    rewrite Hu, Z.div_mul by lia. apply u16_small. simpl. lia.
  - intros s Hn. apply blocks_in_absent; assumption.
Qed.

Lemma getNumBlocksAvailable_pool_witness :
  valid_config cfg_static /\ is_pool cfg_static = true /\
  reachable cfg_static st_static_5x12 /\
  mkAllocator StaticBank 32 4 1 [9; 10; 11]%nat ∈ registry st_static_5x12 /\
  getNumBlocksAvailable 32 st_static_5x12 = Ok 3.
Proof.
  assert (Hr : reachable cfg_static st_static_5x12).
  { apply (reach_alloc cfg_static st_static_4x12 9 12 (Some 8%nat));
      [exact reachable_static_4x12|lia|vm_compute; reflexivity]. }
  assert (HA : mkAllocator StaticBank 32 4 1 [9; 10; 11]%nat ∈ registry st_static_5x12).
  { apply list_elem_of_In. vm_compute. right. right. left. reflexivity. }
  split; [exact valid_cfg_static|]. split; [reflexivity|].
  split; [exact Hr|]. split; [exact HA|].
  exact (proj1 (getNumBlocksAvailable_pool cfg_static st_static_5x12
                  valid_cfg_static eq_refl Hr)
           (mkAllocator StaticBank 32 4 1 [9; 10; 11]%nat) HA
           ltac:(simpl; lia) ltac:(simpl; lia)).
Defined.

(** *** The first word of a block names a bank of the Registry *)

Lemma tags_step st st' :
  tags_registered st ->
  (forall x, Some x ∈ _allocators st -> Some x ∈ _allocators st') ->
  (forall b blk', memory st' !! b = Some blk' ->
     (exists blk, memory st !! b = Some blk /\ b_tag blk' = b_tag blk) \/
     b_tag blk' = None \/
     (exists a, b_tag blk' = Some a /\ Some a ∈ _allocators st')) ->
  tags_registered st'.
Proof.
  intros Ht Hsl Hmem b blk' a Hb Htag.
  destruct (Hmem b blk' Hb) as [[blk [Hblk Heq]]|[Hn|[a' [Ha' Hin]]]].
  - apply Hsl. eapply Ht; [exact Hblk|]. rewrite <- Heq. exact Htag.
  - congruence.
  - rewrite Htag in Ha'. injection Ha' as <-. exact Hin.
Qed.

Lemma Allocate_tags cfg a st r st' :
  tags_registered st -> Allocate cfg a st = Ok (r, st') -> tags_registered st'.
Proof.
  intros Ht H. unfold Allocate in H. inv_ok H.
  destruct (freeList x) as [|b fl].
  - destruct (a_kind x); [injection H as _ <-; exact Ht|].
    destruct (_ <? _); [|injection H as _ <-; exact Ht]. injection H as _ <-.
    apply (tags_step st); [exact Ht|auto|]. simpl.
    intros b blk'. rewrite lookup_insert. case_decide.
    + intros [= <-]. right. left. reflexivity.
    + intros Hb. left. eauto.
  - injection H as _ <-. apply (tags_step st); [exact Ht|auto|]. simpl.
    intros b0 blk' Hb. left. eauto.
Qed.

Lemma set_block_allocator_tags cfg b a st st' :
  tags_registered st -> Some a ∈ _allocators st ->
  set_block_allocator cfg b a st = Ok st' -> tags_registered st'.
Proof.
  intros Ht Hin H. unfold set_block_allocator in H. inv_ok H.
  destruct (_ <=? _); [|discriminate]. injection H as <-.
  apply (tags_step st); [exact Ht|auto|]. simpl.
  intros b0 blk'. rewrite lookup_insert. case_decide.
  - intros [= <-]. right. right. exists a. split; [reflexivity|exact Hin].
  - intros Hb. left. eauto.
Qed.

Lemma memcpy_tags dst src n st st' :
  tags_registered st -> memcpy dst src n st = Ok st' -> tags_registered st'.
Proof.
  intros Ht H. unfold memcpy in H. inv_ok H. apply of_option_Ok in Hx.
  destruct (_ && _); [|discriminate]. injection H as <-.
  apply (tags_step st); [exact Ht|auto|]. simpl.
  intros b0 blk'. rewrite lookup_insert. case_decide.
  - intros [= <-]. subst. left. eauto.
  - intros Hb. left. eauto.
Qed.

Lemma memory_free_tags p st st' :
  tags_registered st -> __memory_free p st = Ok st' -> tags_registered st'.
Proof.
  intros Ht H. destruct p as [b|]; simpl in H; [|injection H as <-; exact Ht].
  inv_ok H. unfold Deallocate in H. inv_ok H. injection H as <-.
  apply (tags_step st); [exact Ht|auto|]. simpl.
  intros b0 blk'. rewrite lookup_insert. case_decide.
  - intros [= <-]. right. left. reflexivity.
  - intros Hb. left. eauto.
Qed.

Lemma insert_in_elem (l l' : list (option nat)) a x :
  insert_in l a = Some l' -> Some x ∈ l -> Some x ∈ l'.
Proof.
  revert l'. induction l as [|[y|] r IH]; intros l' H Hin; [inversion Hin| |].
  - simpl in H. destruct (insert_in r a) as [r'|]; [|discriminate].
    injection H as <-. apply elem_of_cons in Hin as [Heq|Hin].
    + rewrite Heq. left.
    + right. apply IH; [reflexivity|exact Hin].
  - simpl in H. injection H as <-. apply elem_of_cons in Hin as [Heq|Hin];
      [discriminate|]. right. exact Hin.
Qed.

Lemma memory_get_allocator_tags cfg size st r st1 :
  tags_registered st -> memory_get_allocator cfg size st = Ok (r, st1) ->
  tags_registered st1.
Proof.
  intros Ht H. unfold memory_get_allocator in H. inv_ok H.
  destruct x as [a|]; [injection H as _ <-; exact Ht|].
  destruct (is_pool cfg); [injection H as _ <-; exact Ht|].
  unfold new_bank, insert_allocator in H. simpl in H.
  destruct (insert_in (_allocators st) (next_obj st)) as [l'|] eqn:Eins;
    injection H as _ <-.
  - apply (tags_step st); [exact Ht| |]; simpl.
    + intros y Hy. eapply insert_in_elem; eauto.
    + intros b blk' Hb. left. eauto.
  - apply (tags_step st); [exact Ht|auto|]. simpl.
    intros b blk' Hb. left. eauto.
Qed.

Lemma memory_alloc_tags cfg (fuel : nat) : forall size st r st',
  valid_config cfg -> Inv cfg st -> tags_registered st ->
  __memory_alloc fuel cfg size st = Ok (r, st') -> tags_registered st'.
Proof.
  induction fuel as [|f IH]; intros size st r st' Hv HI Ht H; [discriminate|].
  cbn [__memory_alloc] in H. inv_ok H.
  assert (HI1 : Inv cfg (snd x)) by (destruct x; eapply memory_get_allocator_Inv; eauto).
  assert (Ht1 : tags_registered (snd x))
    by (destruct x; eapply memory_get_allocator_tags; eauto).
  destruct x as [[a|] st1]; simpl in HI1, Ht1; [|injection H as _ <-; exact Ht1].
  destruct (memory_get_allocator_Some cfg size st a st1 HI Hx) as [Hin _].
  inv_ok H.
  assert (HI2 : Inv cfg (snd x)) by (destruct x; eapply Allocate_Inv; eauto).
  assert (Ht2 : tags_registered (snd x)) by (destruct x; eapply Allocate_tags; eauto).
  pose proof (Allocate_shape cfg a st1 (fst x) (snd x)) as Hsh.
  destruct x as [[b|] st2]; simpl in HI2, Ht2, Hsh; specialize (Hsh Hx0).
  - inv_ok H. injection H as _ <-.
    eapply set_block_allocator_tags; [exact Ht2| |exact Hx1].
    assert (Hs : _allocators st2 = _allocators st1) by (injection Hsh; auto).
    rewrite Hs. exact Hin.
  - inv_ok H. destruct (_ <? _); [eapply IH; eauto|].
    injection H as _ <-. exact Ht2.
Qed.

Lemma memory_realloc_tags cfg fuel p size st r st' :
  valid_config cfg -> Inv cfg st -> tags_registered st ->
  __memory_realloc fuel cfg p size st = Ok (r, st') -> tags_registered st'.
Proof.
  intros Hv HI Ht H. unfold __memory_realloc in H. destruct p as [old|];
    [|eapply memory_alloc_tags; eauto].
  destruct (size =? 0).
  - inv_ok H. injection H as _ <-. eapply memory_free_tags; eauto.
  - inv_ok H. destruct x as [[new|] st1].
    + assert (Ht1 : tags_registered st1) by (eapply memory_alloc_tags; eauto).
      inv_ok H. injection H as _ <-.
      eapply memory_free_tags; [|eauto]. eapply memcpy_tags; eauto.
    + injection H as _ <-. eapply memory_alloc_tags; eauto.
Qed.

Lemma new_bank_untagged cfg k bs n st :
  (forall b blk, memory st !! b = Some blk -> b_tag blk = None) ->
  forall b blk, memory (snd (new_bank cfg k bs n st)) !! b = Some blk ->
    b_tag blk = None.
Proof.
  intros Hu b blk. unfold new_bank. destruct k; simpl; [|apply Hu].
  rewrite foldr_insert_lookup. case_decide; [intros [= <-]; reflexivity|apply Hu].
Qed.

Lemma insert_apply_untagged cfg (n : nat) : forall from st,
  (forall b blk, memory st !! b = Some blk -> b_tag blk = None) ->
  forall b blk, memory (insert_apply cfg n from st) !! b = Some blk ->
    b_tag blk = None.
Proof.
  induction n as [|n IH]; intros from st Hu; cbn [insert_apply];
    pose proof (new_bank_untagged cfg (pool_kind cfg) (pool_blockSize cfg from)
                  (NUM_BLOCKS cfg) st Hu) as Hn;
    destruct (new_bank _ _ _ _ _) as [a st1]; simpl in Hn.
  - exact Hn.
  - apply IH. exact Hn.
Qed.

Lemma bootstrap_tags cfg : tags_registered (bootstrap cfg).
Proof.
  assert (Hu : forall b blk, memory (bootstrap cfg) !! b = Some blk -> b_tag blk = None).
  { unfold bootstrap, MemoryInitDestroy_ctor. simpl. unfold memory_init.
    assert (H0 : forall b blk,
              memory (with_refCount (0 + 1) (initial_state cfg)) !! b = Some blk ->
              b_tag blk = None).
    { intros b blk Hb. simpl in Hb. rewrite lookup_empty in Hb. discriminate. }
    destruct (is_pool cfg); [apply insert_apply_untagged|]; exact H0. }
  intros b blk a Hb Htag. rewrite (Hu b blk Hb) in Htag. discriminate.
Qed.

Lemma reachable_tags cfg st :
  valid_config cfg -> reachable cfg st -> tags_registered st.
Proof.
  intros Hv Hr. induction Hr as
    [|st fuel n r st' Hr IH _ H|st p st' Hr IH H|st fuel p n r st' Hr IH _ H].
  - apply bootstrap_tags.
  - eapply memory_alloc_tags; eauto using reachable_Inv.
  - eapply memory_free_tags; eauto.
  - eapply memory_realloc_tags; eauto using reachable_Inv.
Qed.

Lemma memory_free_released cfg p st st' :
  Inv cfg st -> tags_registered st ->
  __memory_free (Some p) st = Ok st' ->
  exists bs, block_bank_size st p = Some bs /\
    sum_used st' = sum_used st - bs.
Proof.
  intros HI Ht H. cbn [__memory_free] in H. inv_ok H.
  unfold get_block_allocator in Hx. inv_ok Hx.
  apply of_option_Ok in Hx, Hx0. rename x into a. rename x0 into blk.
  unfold Deallocate in H. inv_ok H. apply deref_Ok in Hx1. injection H as <-.
  exists (blockSize x). split.
  - unfold block_bank_size. rewrite Hx0, Hx, Hx1. reflexivity.
  - erewrite (sum_used_bank_update cfg st a x); eauto. simpl. lia.
Qed.

(** X17.  [free(p)] of a live block succeeds only for a block whose first
    word names a bank of the Registry, and lowers the memory in use by
    exactly the block size of that bank; the Registry's block sizes stay as
    they are. *)
Theorem free_releases_one_block cfg st p st' :
  valid_config cfg -> reachable cfg st ->
  __memory_free (Some p) st = Ok st' ->
  exists bs, block_bank_size st p = Some bs /\
    bs ∈ registry_sizes st /\
    sum_used st' = sum_used st - bs /\
    registry_sizes st' = registry_sizes st.
Proof.
  intros Hv Hr H. pose proof (reachable_Inv cfg st Hv Hr) as HI.
  pose proof (reachable_tags cfg st Hv Hr) as Ht.
  destruct (memory_free_released cfg p st st' HI Ht H) as [bs [Hb Hsum]].
  exists bs. split; [exact Hb|]. split; [|split; [exact Hsum|]].
  - unfold block_bank_size in Hb.
    destruct (memory st !! p) as [blk|] eqn:Eb; [|discriminate].
    destruct (b_tag blk) as [a|] eqn:Et; [|discriminate].
    destruct (objects st !! a) as [A|] eqn:EA; [|discriminate].
    injection Hb as <-. apply registry_size_elem.
    eapply registry_elem; [|exact EA]. eapply Ht; eauto.
  - apply registry_sizes_shape. eapply memory_free_shape. exact H.
Qed.

Lemma free_releases_one_block_witness :
  valid_config cfg_static /\ reachable cfg_static st_static_5x12 /\
  (exists st', __memory_free (Some 8%nat) st_static_5x12 = Ok st' /\
     sum_used st' = sum_used st_static_5x12 - 32).
Proof.
  assert (Hr : reachable cfg_static st_static_5x12).
  { apply (reach_alloc cfg_static st_static_4x12 9 12 (Some 8%nat));
      [exact reachable_static_4x12|lia|vm_compute; reflexivity]. }
  split; [exact valid_cfg_static|]. split; [exact Hr|].
  destruct (__memory_free (Some 8%nat) st_static_5x12) as [st'| |] eqn:E;
    [|vm_compute in E; discriminate|vm_compute in E; discriminate].
  exists st'. split; [reflexivity|].
  destruct (free_releases_one_block cfg_static st_static_5x12 8%nat st'
              valid_cfg_static Hr E) as [bs [Hb [_ [Hsum _]]]].
  assert (Hbs : block_bank_size st_static_5x12 8 = Some 32) by (vm_compute; reflexivity).
  rewrite Hbs in Hb. injection Hb as <-. exact Hsum.
Defined.

(** *** What an allocation leaves alone *)

Lemma block_bank_size_ext st st' p bs :
  (forall blk, memory st !! p = Some blk ->
     exists blk', memory st' !! p = Some blk' /\ b_tag blk' = b_tag blk) ->
  (forall a A, objects st !! a = Some A ->
     exists A', objects st' !! a = Some A' /\ blockSize A' = blockSize A) ->
  block_bank_size st p = Some bs -> block_bank_size st' p = Some bs.
Proof.
  intros Hm Ho. unfold block_bank_size.
  destruct (memory st !! p) as [blk|]; [|discriminate].
  destruct (Hm blk eq_refl) as [blk' [-> ->]].
  destruct (b_tag blk) as [a|]; [|discriminate].
  destruct (objects st !! a) as [A|] eqn:EA; [|discriminate].
  destruct (Ho a A EA) as [A' [-> Hbs]]. simpl. congruence.
Qed.

Lemma memory_get_allocator_frame cfg size st r st1 :
  Inv cfg st -> memory_get_allocator cfg size st = Ok (r, st1) ->
  memory st1 = memory st /\
  forall a A, objects st !! a = Some A -> objects st1 !! a = Some A.
Proof.
  intros HI H. unfold memory_get_allocator in H. inv_ok H.
  destruct x as [a|]; [injection H as _ <-; auto|].
  destruct (is_pool cfg); [injection H as _ <-; auto|].
  unfold new_bank, insert_allocator in H. simpl in H.
  assert (Hfr : forall a A, objects st !! a = Some A ->
            <[next_obj st := mkAllocator DynamicBank
                (bucket cfg (u32 (size + required_extra_buffer cfg)))
                (NUM_BLOCKS cfg) 0 []]> (objects st) !! a = Some A).
  { intros a A Ha. rewrite lookup_insert_ne; [exact Ha|].
    intros <-. pose proof (inv_fresh _ _ HI (next_obj st)) as Hlt.
    specialize (Hlt ltac:(eauto)). lia. }
  destruct (insert_in (_allocators st) (next_obj st)); injection H as _ <-;
    simpl; auto.
Qed.

Lemma Allocate_frame cfg a st b st' :
  Allocate cfg a st = Ok (Some b, st') ->
  forall p, p <> b -> memory st' !! p = memory st !! p.
Proof.
  intros H p Hne. unfold Allocate in H. inv_ok H.
  destruct (freeList x) as [|b0 fl].
  - destruct (a_kind x); [discriminate|].
    destruct (_ <? _); [|discriminate]. injection H as <- <-. simpl.
    apply lookup_insert_ne. congruence.
  - injection H as _ <-. reflexivity.
Qed.

Lemma memory_alloc_frame cfg (fuel : nat) : forall n st q st',
  valid_config cfg -> Inv cfg st ->
  __memory_alloc fuel cfg n st = Ok (Some q, st') ->
  (forall p, p <> q -> memory st' !! p = memory st !! p) /\
  (forall a A, objects st !! a = Some A ->
     exists A', objects st' !! a = Some A' /\ blockSize A' = blockSize A).
Proof.
  induction fuel as [|f IH]; intros n st q st' Hv HI H; [discriminate|].
  cbn [__memory_alloc] in H. inv_ok H. destruct x as [[a|] st1]; [|discriminate].
  assert (HI1 : Inv cfg st1) by (eapply memory_get_allocator_Inv; eauto).
  destruct (memory_get_allocator_frame cfg n st _ st1 HI Hx) as [Hm1 Ho1].
  inv_ok H. destruct x as [[b|] st2].
  - inv_ok H. injection H as <- <-.
    pose proof (Allocate_frame cfg a st1 b st2 Hx0) as Hm2.
    pose proof (Allocate_shape cfg a st1 _ st2 Hx0) as Hsh.
    unfold set_block_allocator in Hx1. inv_ok Hx1.
    destruct (_ <=? _); [|discriminate]. injection Hx1 as <-. simpl. split.
    + intros p Hne. rewrite lookup_insert_ne by congruence.
      rewrite Hm2 by exact Hne. rewrite Hm1. reflexivity.
    + intros a0 A0 Ha0. apply Ho1 in Ha0.
      pose proof (shape_lookup st1 st2 a0 Hsh) as Hst. rewrite Ha0 in Hst.
      destruct (objects st2 !! a0) as [A'|]; [|discriminate].
      exists A'. split; [reflexivity|]. simpl in Hst. injection Hst as _ Hbs _.
      exact Hbs.
  - apply Allocate_None in Hx0 as [-> _]. inv_ok H.
    destruct (_ <? _); [|discriminate].
    destruct (IH _ _ _ _ Hv HI1 H) as [Hm Ho]. split.
    + intros p Hne. rewrite Hm by exact Hne. rewrite Hm1. reflexivity.
    + intros a0 A0 Ha0. apply Ho1 in Ha0. exact (Ho a0 A0 Ha0).
Qed.

Lemma memcpy_spec dst src n st st' :
  memcpy dst src n st = Ok st' ->
  exists d data, memory st !! dst = Some d /\
    st' = with_memory
            (<[dst := mkBlock (b_owner d) (b_size d) (b_tag d) data]> (memory st)) st.
Proof.
  intros H. unfold memcpy in H. inv_ok H. apply of_option_Ok in Hx.
  destruct (_ && _); [|discriminate]. injection H as <-. eauto.
Qed.

(** X18.  A [realloc(p, n)] with [n] not 0 that returns another block
    charges the new block and releases the old one: the new block names a
    bank of the Registry and the memory in use changes by the new bank's
    block size minus the old bank's. *)
Theorem realloc_accounting cfg st fuel p n q st' bs_old :
  valid_config cfg -> reachable cfg st ->
  n <> 0 -> q <> p ->
  block_bank_size st p = Some bs_old ->
  __memory_realloc fuel cfg (Some p) n st = Ok (Some q, st') ->
  exists bs_new, block_bank_size st' q = Some bs_new /\
    sum_used st' = sum_used st + bs_new - bs_old.
Proof.
  intros Hv Hr Hn Hqp Hold H. pose proof (reachable_Inv cfg st Hv Hr) as HI.
  pose proof (reachable_tags cfg st Hv Hr) as Ht.
  unfold __memory_realloc in H.
  destruct (Z.eqb_spec n 0) as [|_]; [contradiction|].
  inv_ok H. destruct x as [[q'|] st1]; [|discriminate].
  inv_ok H. injection H as -> <-. rename x into oa, x0 into OA, x1 into st2.
  destruct (memory_alloc_result cfg fuel n st q st1 Hv HI Hx)
    as [a [A [blk [Hblk [Htag [HA [Hin [HI1 [Hsum _]]]]]]]]].
  pose proof (memory_alloc_tags cfg fuel n st _ st1 Hv HI Ht Hx) as Ht1.
  destruct (memory_alloc_frame cfg fuel n st q st1 Hv HI Hx) as [Hm Ho].
  assert (Hold1 : block_bank_size st1 p = Some bs_old).
  { apply (block_bank_size_ext st st1 p bs_old); [|exact Ho|exact Hold].
    intros blk0 Hb0. exists blk0. split; [|reflexivity].
    rewrite Hm by congruence. exact Hb0. }
  pose proof (memcpy_Inv _ _ _ _ _ _ HI1 Hx2) as HI2.
  pose proof (memcpy_tags _ _ _ _ _ Ht1 Hx2) as Ht2.
  destruct (memcpy_spec _ _ _ _ _ Hx2) as [d [data [Hd ->]]].
  rewrite Hblk in Hd. injection Hd as <-.
  destruct (memory_free_released cfg p _ x2 HI2 Ht2 Hx3) as [bs [Hbs Hsum3]].
  assert (Hbs' : bs = bs_old).
  { unfold block_bank_size in Hbs, Hold1. simpl in Hbs.
    rewrite lookup_insert_ne in Hbs by congruence. congruence. }
  subst bs. exists (blockSize A). split.
  - cbn [__memory_free] in Hx3. inv_ok Hx3. unfold Deallocate in Hx3. inv_ok Hx3.
    apply deref_Ok in Hx5. simpl in Hx5. injection Hx3 as <-.
    unfold block_bank_size. simpl.
    rewrite lookup_insert_ne by congruence. rewrite lookup_insert_eq. simpl.
    rewrite Htag, lookup_insert. case_decide.
    + subst. rewrite HA in Hx5. injection Hx5 as <-. reflexivity.
    + rewrite HA. reflexivity.
  - rewrite Hsum3.
    change (sum_used st1 - bs_old = sum_used st + blockSize A - bs_old). lia.
Qed.
